(** * stockAssessmentFuns.hpp: a shallow embedding over exact real arithmetic

    The C++ templates of [stockAssessmentFuns.hpp] are instantiated at a
    scalar [Type] (a double, or an AD scalar over doubles).  Here [Type] is
    read as the real numbers [R]: every arithmetic operation is the exact
    one, rounding is not modelled.

    IEEE arithmetic is total: a division by zero or a logarithm of a
    non-positive number yields an infinity or a NaN and the computation
    goes on.  The reals have no such values, so the operations that can
    leave the reals are partial here ([option R]): [None] stands for
    "an operation of this computation left the real numbers", never for
    an exception of the program.  An IEEE run that passes through an
    infinity can come back to a finite value ([eps/(2 - eps/0)] is a zero
    in [posfun], [exp(log(0))] is 0 in [addCompNoise]); such runs are
    [None] as well, and no statement below is about them.  The same
    [None] is used where C++ leaves the behaviour
    undefined (an index outside an Eigen vector, an element-wise sum of
    vectors of different sizes, an integer division by zero).

    The [int] arguments are integers in [Z]; the functions below only add
    and subtract ages and sizes, and signed overflow (undefined in C++) is
    outside the range of every statement made here. *)

From Stdlib Require Import Reals Lra Lia ZArith List Bool.
Import ListNotations.

Open Scope R_scope.

(** ** The error monad of partial real arithmetic *)

Definition bind {A B : Type} (m : option A) (k : A -> option B) : option B :=
  match m with
  | Some a => k a
  | None => None
  end.

Notation "x <- m ;; k" := (bind m (fun x => k))
  (at level 61, m at next level, right associativity).

Notation "' p <- m ;; k" := (bind m (fun p => k))
  (at level 61, p pattern, m at next level, right associativity).

(** [a / b] for scalars. *)
Definition rdiv (a b : R) : option R :=
  if Req_dec_T b 0 then None else Some (a / b).

(** [log(x)] for a scalar. *)
Definition rlog (x : R) : option R :=
  if Rlt_dec 0 x then Some (ln x) else None.

(** [pow(x, n)] for a scalar [x] and an [int] exponent [n]. *)
Definition pow_int (x : R) (n : Z) : option R :=
  if (0 <=? n)%Z then Some (x ^ Z.to_nat n)
  else rdiv 1 (x ^ Z.to_nat (- n)).

(** [a / b] for [int]s: C++ truncates towards zero. *)
Definition idiv (a b : Z) : option Z :=
  if (b =? 0)%Z then None else Some (Z.quot a b).

(** [CppAD::CondExpLt(l, r, t, f)] and [CppAD::CondExpGe(l, r, t, f)]: both
    [t] and [f] are evaluated by the caller, the comparison selects one. *)
Definition CondExpLt {A : Type} (l r : R) (t f : A) : A :=
  if Rlt_dec l r then t else f.

Definition CondExpGe {A : Type} (l r : R) (t f : A) : A :=
  if Rge_dec l r then t else f.

(** ** Vectors: [vector<Type>] as [list R] *)

Definition vsum (v : list R) : R := fold_left Rplus v 0.
Definition vprod (v : list R) : R := fold_left Rmult v 1.
Definition vsize (v : list R) : Z := Z.of_nat (length v).

(** [v(i)] read: defined for [0 <= i < v.size()]. *)
Definition vget (v : list R) (i : Z) : option R :=
  if (i <? 0)%Z then None else nth_error v (Z.to_nat i).

Fixpoint upd (v : list R) (i : nat) (x : R) : option (list R) :=
  match v, i with
  | [], _ => None
  | _ :: t, O => Some (x :: t)
  | h :: t, S j => t' <- upd t j x ;; Some (h :: t')
  end.

(** [v(i) = x]: defined for [0 <= i < v.size()]. *)
Definition vset (v : list R) (i : Z) (x : R) : option (list R) :=
  if (i <? 0)%Z then None else upd v (Z.to_nat i) x.

(** [vector<Type> v(n); v.fill(0)]. *)
Definition vzeros (n : Z) : option (list R) :=
  if (n <? 0)%Z then None else Some (repeat 0 (Z.to_nat n)).

(** Element-wise [a + b]. *)
Fixpoint vadd (a b : list R) : option (list R) :=
  match a, b with
  | [], [] => Some []
  | x :: a', y :: b' => r <- vadd a' b' ;; Some ((x + y) :: r)
  | _, _ => None
  end.

(** A loop body run over every element, left to right. *)
Fixpoint mapM {A B : Type} (f : A -> option B) (l : list A) : option (list B) :=
  match l with
  | [] => Some []
  | x :: t => y <- f x ;; r <- mapM f t ;; Some (y :: r)
  end.

(** ** posfun *)

(** [posfun(x, eps, pen)]: the returned value and the new value of [pen]. *)
Definition posfun (x eps pen : R) : option R * R :=
  let pen' := pen + CondExpLt x eps (0.01 * (x - eps) ^ 2) 0 in
  (CondExpGe x eps (Some x) (q <- rdiv eps x ;; rdiv eps (2 - q)), pen').

(** ** square *)

Definition square (x : R) : R := x ^ 2.

(** [VECTORIZE1_t(square)]. *)
Definition square_vec (v : list R) : list R := map square v.

(** ** addCompNoise *)

Definition addCompNoise (inputComp noise : list R) : option (list R) :=
  (* for( c < nComps ) logInputComp(c) = log( inputComp(c) ) *)
  logInputComp <- mapM rlog inputComp ;;
  (* outputComp = exp(logInputComp + noise) *)
  shifted <- vadd logInputComp noise ;;
  let outputComp := map exp shifted in
  let tmpTotal := vsum outputComp in
  (* outputComp /= tmpTotal *)
  mapM (fun v => rdiv v tmpTotal) outputComp.

(** ** CRmort *)

Section CRmort.

Variable ageComp : list R.
Variables kage Aplus minObs : Z.

(** The loop [for( a = kage-1; a < Aplus; a++ )], entered at age [a] with
    [n] values of [a] left below [Aplus]; the [else] branch is the
    [break]. *)
Fixpoint CRmort_loop (n : nat) (a : Z) (ageObs : list R) (abar : R)
  : option (list R * R) :=
  match n with
  | O => Some (ageObs, abar)
  | S n' =>
      x <- vget ageComp a ;;
      if Rge_dec x (IZR minObs) then
        ageObs' <- vset ageObs (a - kage + 1) x ;;
        CRmort_loop n' (a + 1) ageObs' (abar + IZR (a - kage + 1) * x)
      else Some (ageObs, abar)
  end.

(** Lines 98-113: [ageObs] and the running [abar] when the loop is left. *)
Definition CRmort_fill : option (list R * R) :=
  let maxAges := (Aplus - kage + 1)%Z in
  ageObs <- vzeros maxAges ;;
  CRmort_loop (Z.to_nat (Aplus - (kage - 1))) (kage - 1) ageObs 0.

(** Lines 116-117: [N = ageObs.sum()] and [abar /= N]. *)
Definition CRmort_abar : option (R * R) :=
  ' (ageObs, abar) <- CRmort_fill ;;
  let N := vsum ageObs in
  abar' <- rdiv abar N ;;
  Some (N, abar').

(** The value written to [Ztmp]. *)
Definition CRmort : option R :=
  ' (N, abar) <- CRmort_abar ;;
  if Req_dec_T abar 0 then Some (-1)
  else
    i <- rdiv 1 N ;;
    q <- rdiv (1 + abar - i) abar ;;
    rlog q.

(** *** The age range as the specification words it *)

(** The entries of [ageComp] for the ages [kage .. Aplus]. *)
Definition ageWindow : list R :=
  firstn (Z.to_nat (Aplus - kage + 1)) (skipn (Z.to_nat (kage - 1)) ageComp).

(** The longest prefix whose entries all reach [minObs]. *)
Fixpoint leading (w : list R) : list R :=
  match w with
  | [] => []
  | x :: t => if Rge_dec x (IZR minObs) then x :: leading t else []
  end.

(** The sum of [relativeIndex * entry], the first entry having relative
    index [j]. *)
Fixpoint weighted (j : Z) (w : list R) : R :=
  match w with
  | [] => 0
  | x :: t => IZR j * x + weighted (j + 1) t
  end.

Definition recorded : list R := leading ageWindow.

Definition recorded_ageObs : list R :=
  recorded ++ repeat 0 (length ageWindow - length recorded).

Definition recorded_abar : R := weighted 0 recorded.

End CRmort.

(** ** solveBaranovDD *)

Section Baranov.

Variables Bstep C M B : R.

(** The variables alive from one iteration to the next.  [f], [J] and
    [tmp] are assigned in every iteration before they are read. *)
Record BaranovVars : Type := mkVars { vZ : R; vF : R; vnewZ : R }.

(** One pass through the body of the [for] loop. *)
Definition Baranov_body (s : BaranovVars) : option BaranovVars :=
  let Zt := vnewZ s in
  let newZ := M in
  let F := vF s in
  tmp <- rdiv (B * (1 - exp (- Zt)) * F) Zt ;;
  let f := C - tmp in
  j1 <- rdiv ((1 - exp (- Zt)) * M) (Zt ^ 2) ;;
  j2 <- rdiv (exp (- Zt) * F) Zt ;;
  let J := - B * (j1 + j2) in
  d <- rdiv (Bstep * f) J ;;
  let F := F - d in
  let newZ := newZ + F in
  Some (mkVars Zt F newZ).

Fixpoint Baranov_iter (n : nat) (s : BaranovVars) : option BaranovVars :=
  match n with
  | O => Some s
  | S n' => s' <- Baranov_body s ;; Baranov_iter n' s'
  end.

(** The variables when the loop is entered. *)
Definition Baranov_init : option BaranovVars :=
  F <- rdiv C (C + B) ;;
  Some (mkVars (M + F) F (M + F)).

(** [solveBaranovDD(nIter, Bstep, C, M, B, Z, F)]: the values left in
    [Z] and [F]. *)
Definition solveBaranovDD (nIter : Z) : option (R * R) :=
  s0 <- Baranov_init ;;
  s <- Baranov_iter (Z.to_nat nIter) s0 ;;
  Some (vZ s, vF s).

(** *** The recurrence as the specification words it *)

Definition J_of (F : R) : R :=
  let Zi := M + F in
  - B * ((1 - exp (- Zi)) * M / Zi ^ 2 + exp (- Zi) * F / Zi).

Definition F_next (F : R) : R :=
  let Zi := M + F in
  let tmp := B * (1 - exp (- Zi)) * F / Zi in
  let f := C - tmp in
  F - Bstep * f / J_of F.

Fixpoint F_rec (i : nat) : R :=
  match i with
  | O => C / (C + B)
  | S k => F_next (F_rec k)
  end.

(** The variables after [i] iterations, in terms of the recurrence: [Z]
    lags one update behind [F] and [newZ]. *)
Definition Baranov_at (i : nat) : BaranovVars :=
  mkVars (M + F_rec (pred i)) (F_rec i) (M + F_rec i).

(** No division of the first [n] iterations is by zero. *)
Definition Baranov_regular (n : nat) : Prop :=
  C + B <> 0 /\
  forall i, (i < n)%nat -> M + F_rec i <> 0 /\ J_of (F_rec i) <> 0.

End Baranov.

(** ** negLogLogisticNormal *)

(** [pow(v.prod(), 1/N)], with [N] the [int] of line 201. *)
Definition geoMean (N : Z) (v : list R) : option R :=
  e <- idiv 1 N ;;
  pow_int (vprod v) e.

Section LogisticNormal.

Variables y p : list R.
Variable var : R.
Variables ytilde ptilde : R.

(** The loop [for( i = 0; i < N; i++ )], entered at [i] with [n] values
    of [i] left below [N]. *)
Fixpoint nld_loop (n : nat) (i : Z) (nld : R) : option R :=
  match n with
  | O => Some nld
  | S n' =>
      y_i <- vget y i ;;
      a <- rdiv y_i ytilde ;;
      la <- rlog a ;;
      p_i <- vget p i ;;
      b <- rdiv p_i ptilde ;;
      lb <- rlog b ;;
      t <- rdiv (square (la - lb) / 2) var ;;
      nld_loop n' (i + 1) (nld + t)
  end.

End LogisticNormal.

Definition negLogLogisticNormal (y p : list R) (var : R) : option R :=
  let N := vsize y in
  lnvar <- rlog var ;;
  let nld := 0 in
  ytilde <- geoMean N y ;;
  ptilde <- geoMean N p ;;
  let nld := nld + IZR (N - 1) * lnvar / 2 in
  nld_loop y p var ytilde ptilde (Z.to_nat N) 0 nld.

(** The geometric mean as the specification words it: the product to the
    real power [1/N]. *)
Definition geoMean_real (v : list R) : R :=
  Rpower (vprod v) (1 / INR (length v)).


(** * Properties *)

(** ** Partial arithmetic *)

Lemma rdiv_some (a b : R) : b <> 0 -> rdiv a b = Some (a / b).
Proof.
  intros Hb. unfold rdiv. destruct (Req_dec_T b 0) as [E | _]; [contradiction | reflexivity].
Qed.

Lemma rdiv_zero (a : R) : rdiv a 0 = None.
Proof.
  unfold rdiv. destruct (Req_dec_T 0 0) as [_ | N]; [reflexivity | now elim N].
Qed.

Lemma rdiv_inv (a b v : R) : rdiv a b = Some v -> b <> 0 /\ v = a / b.
Proof.
  unfold rdiv. destruct (Req_dec_T b 0) as [E | N]; intros H; [discriminate | ].
  inversion H. split; [assumption | reflexivity].
Qed.

Lemma rlog_some (x : R) : 0 < x -> rlog x = Some (ln x).
Proof.
  intros Hx. unfold rlog. destruct (Rlt_dec 0 x) as [_ | N]; [reflexivity | contradiction].
Qed.

Lemma CondExpGe_true {A : Type} (l r : R) (t f : A) : l >= r -> CondExpGe l r t f = t.
Proof.
  intros H. unfold CondExpGe. destruct (Rge_dec l r); [reflexivity | contradiction].
Qed.

Lemma CondExpGe_false {A : Type} (l r : R) (t f : A) : l < r -> CondExpGe l r t f = f.
Proof.
  intros H. unfold CondExpGe. destruct (Rge_dec l r); [lra | reflexivity].
Qed.

Lemma CondExpLt_true {A : Type} (l r : R) (t f : A) : l < r -> CondExpLt l r t f = t.
Proof.
  intros H. unfold CondExpLt. destruct (Rlt_dec l r); [reflexivity | contradiction].
Qed.

Lemma CondExpLt_false {A : Type} (l r : R) (t f : A) : l >= r -> CondExpLt l r t f = f.
Proof.
  intros H. unfold CondExpLt. destruct (Rlt_dec l r); [lra | reflexivity].
Qed.

(** ** posfun *)

(** Below the threshold the returned value is [eps * x / (2 * x - eps)],
    whenever the two divisions stay in the reals. *)
Lemma posfun_below (x eps pen : R) :
  x < eps -> x <> 0 -> 2 * x <> eps ->
  fst (posfun x eps pen) = Some (eps * x / (2 * x - eps)).
Proof.
  intros Hlt Hx Hd. unfold posfun. cbn [fst].
  rewrite CondExpGe_false by assumption.
  rewrite (rdiv_some eps x Hx). cbn [bind].
  assert (Hq : 2 - eps / x <> 0).
  { intros E. apply Hd. apply (Rmult_eq_compat_r x) in E.
    replace ((2 - eps / x) * x) with (2 * x - eps) in E by (field; assumption). lra. }
  rewrite (rdiv_some _ _ Hq). f_equal. field. split; [lra | assumption].
Qed.

(** At half the threshold the second division is by zero. *)
Lemma posfun_half (eps pen : R) :
  0 < eps -> fst (posfun (eps / 2) eps pen) = None.
Proof.
  intros He. unfold posfun. cbn [fst].
  rewrite CondExpGe_false by lra.
  rewrite rdiv_some by lra. cbn [bind].
  replace (2 - eps / (eps / 2)) with 0 by (field; lra).
  apply rdiv_zero.
Qed.

Lemma posfun_value_sign (x eps : R) :
  0 < eps -> x <> 0 -> 2 * x <> eps ->
  (x < 0 -> 0 < eps * x / (2 * x - eps) < eps / 2) /\
  (0 < x -> 2 * x < eps -> eps * x / (2 * x - eps) < 0) /\
  (eps < 2 * x -> x < eps -> eps < eps * x / (2 * x - eps)).
Proof.
  intros He Hx Hd. split; [ | split].
  - intros Hn. split.
    + replace (eps * x / (2 * x - eps)) with ((eps * - x) / (eps - 2 * x)) by (field; lra).
      apply Rdiv_lt_0_compat; nra.
    + apply (Rmult_lt_reg_r (eps - 2 * x)); [lra | ].
      replace (eps * x / (2 * x - eps) * (eps - 2 * x)) with (- (eps * x)) by (field; lra).
      nra.
  - intros Hp Hs. apply (Rmult_lt_reg_r (eps - 2 * x)); [lra | ].
    replace (eps * x / (2 * x - eps) * (eps - 2 * x)) with (- (eps * x)) by (field; lra).
    nra.
  - intros Hh Hs. apply (Rmult_lt_reg_r (2 * x - eps)); [lra | ].
    replace (eps * x / (2 * x - eps) * (2 * x - eps)) with (eps * x) by (field; lra).
    nra.
Qed.

(** C1, as the specification states it, fails: with [eps = 4] and [x = 3]
    (so [x < eps] and [x <> 0]) [posfun] returns [6], which is above
    [eps]. *)
Lemma posfun_not_below_eps :
  0 < 4 /\ 3 < 4 /\ 3 <> 0 /\
  fst (posfun 3 4 0) = Some 6 /\ ~ 6 < 4.
Proof.
  repeat split; try lra.
  rewrite posfun_below by lra. f_equal. field.
Qed.

(** C1, amended: for [eps > 0] and [x <> 0], [posfun(x, eps, pen)] returns
    a value strictly less than [eps] when [x < eps/2], and a value
    strictly greater than [eps] when [eps/2 < x < eps]. *)
Theorem posfun_below_eps_iff_below_half (x eps pen : R) :
  0 < eps -> x <> 0 ->
  (x < eps / 2 -> exists v, fst (posfun x eps pen) = Some v /\ v < eps) /\
  (eps / 2 < x < eps -> exists v, fst (posfun x eps pen) = Some v /\ eps < v).
Proof.
  intros He Hx. split.
  - intros Hh. exists (eps * x / (2 * x - eps)).
    split; [apply posfun_below; lra | ].
    destruct (posfun_value_sign x eps He Hx) as (Hneg & Hsmall & _); [lra | ].
    destruct (Rlt_le_dec x 0) as [Hn | Hp].
    + specialize (Hneg Hn). lra.
    + assert (0 < x) by lra. specialize (Hsmall H). lra.
  - intros [Hh Hs]. exists (eps * x / (2 * x - eps)).
    split; [apply posfun_below; lra | ].
    destruct (posfun_value_sign x eps He Hx) as (_ & _ & Hbig); [lra | ].
    apply Hbig; lra.
Qed.

Lemma posfun_below_eps_iff_below_half_witness :
  (exists v, fst (posfun 1 4 0) = Some v /\ v < 4) /\
  (exists v, fst (posfun 3 4 0) = Some v /\ 4 < v).
Proof.
  split.
  - apply (posfun_below_eps_iff_below_half 1 4 0); lra.
  - apply (posfun_below_eps_iff_below_half 3 4 0); lra.
Defined.

(** C6: if [x >= eps], [posfun(x, eps, pen)] returns [x] and leaves [pen]
    as it was; if [x < eps] it adds [0.01 * (x - eps)^2] to [pen]; these
    are the only two updates of [pen]. *)
Theorem posfun_penalty_frame (x eps pen : R) :
  (x >= eps -> posfun x eps pen = (Some x, pen)) /\
  (x < eps -> snd (posfun x eps pen) = pen + 0.01 * (x - eps) ^ 2) /\
  (snd (posfun x eps pen) = pen \/
   snd (posfun x eps pen) = pen + 0.01 * (x - eps) ^ 2).
Proof.
  assert (Hge : x >= eps -> posfun x eps pen = (Some x, pen)).
  { intros H. unfold posfun.
    rewrite CondExpGe_true, CondExpLt_false by assumption.
    f_equal. lra. }
  assert (Hlt : x < eps -> snd (posfun x eps pen) = pen + 0.01 * (x - eps) ^ 2).
  { intros H. unfold posfun. cbn [snd].
    rewrite CondExpLt_true by assumption. reflexivity. }
  repeat split; try assumption.
  destruct (Rlt_le_dec x eps) as [H | H].
  - right. auto.
  - left. rewrite Hge by lra. reflexivity.
Qed.

Lemma posfun_penalty_frame_witness :
  posfun 5 4 7 = (Some 5, 7) /\
  snd (posfun 3 4 7) = 7 + 0.01 * (3 - 4) ^ 2.
Proof.
  split.
  - apply (posfun_penalty_frame 5 4 7). lra.
  - apply (posfun_penalty_frame 3 4 7). lra.
Defined.

(** C10: for [eps > 0] and [0 < x < eps/2], [posfun(x, eps, pen)] returns
    a strictly negative value, whereas for every negative [x] it returns a
    strictly positive one. *)
Theorem posfun_negative_below_half (x eps pen : R) :
  0 < eps ->
  (0 < x < eps / 2 -> exists v, fst (posfun x eps pen) = Some v /\ v < 0) /\
  (x < 0 -> exists v, fst (posfun x eps pen) = Some v /\ 0 < v).
Proof.
  intros He. split.
  - intros [Hp Hh]. exists (eps * x / (2 * x - eps)).
    split; [apply posfun_below; lra | ].
    apply (posfun_value_sign x eps); lra.
  - intros Hn. exists (eps * x / (2 * x - eps)).
    split; [apply posfun_below; lra | ].
    apply (posfun_value_sign x eps); lra.
Qed.

Lemma posfun_negative_below_half_witness :
  (exists v, fst (posfun 1 4 0) = Some v /\ v < 0) /\
  (exists v, fst (posfun (-1) 4 0) = Some v /\ 0 < v).
Proof.
  split.
  - apply (posfun_negative_below_half 1 4 0); lra.
  - apply (posfun_negative_below_half (-1) 4 0); lra.
Defined.

(** ** Vectors *)

Lemma fold_plus_acc (v : list R) (a : R) : fold_left Rplus v a = a + vsum v.
Proof.
  unfold vsum. revert a. induction v as [ | x v IH]; intros a; cbn [fold_left].
  - lra.
  - rewrite (IH (a + x)), (IH (0 + x)). lra.
Qed.

Lemma vsum_cons (x : R) (v : list R) : vsum (x :: v) = x + vsum v.
Proof.
  unfold vsum at 1. cbn [fold_left]. rewrite fold_plus_acc. lra.
Qed.

Lemma vsum_nil : vsum [] = 0.
Proof. reflexivity. Qed.

Lemma vsum_app (u v : list R) : vsum (u ++ v) = vsum u + vsum v.
Proof.
  induction u as [ | x u IH]; cbn [app].
  - rewrite vsum_nil. lra.
  - rewrite !vsum_cons, IH. lra.
Qed.

Lemma vsum_zeros (n : nat) : vsum (repeat 0 n) = 0.
Proof.
  induction n as [ | n IH]; cbn [repeat]; [reflexivity | ].
  rewrite vsum_cons, IH. lra.
Qed.

Lemma vsum_pos (v : list R) :
  v <> [] -> Forall (fun x => 0 < x) v -> 0 < vsum v.
Proof.
  intros Hne Hall. induction Hall as [ | x v Hx Hall IH]; [now elim Hne | ].
  rewrite vsum_cons. destruct v as [ | z v].
  - rewrite vsum_nil. lra.
  - assert (0 < vsum (z :: v)) by (apply IH; discriminate). lra.
Qed.

Lemma vsum_scaled (t : R) (v : list R) :
  vsum (map (fun x => x / t) v) = vsum v / t.
Proof.
  induction v as [ | x v IH]; cbn [map].
  - rewrite vsum_nil. unfold Rdiv. lra.
  - rewrite !vsum_cons, IH. unfold Rdiv. lra.
Qed.

Lemma mapM_rlog (v : list R) :
  Forall (fun x => 0 < x) v -> mapM rlog v = Some (map ln v).
Proof.
  induction 1 as [ | x v Hx _ IH]; cbn [mapM map]; [reflexivity | ].
  rewrite (rlog_some x Hx), IH. reflexivity.
Qed.

Lemma mapM_rdiv (t : R) (v : list R) :
  t <> 0 -> mapM (fun x => rdiv x t) v = Some (map (fun x => x / t) v).
Proof.
  intros Ht. induction v as [ | x v IH]; cbn [mapM map]; [reflexivity | ].
  rewrite (rdiv_some x t Ht), IH. reflexivity.
Qed.

Lemma vadd_same_length (a b : list R) :
  length a = length b ->
  vadd a b = Some (map (fun xy => fst xy + snd xy) (combine a b)).
Proof.
  revert b. induction a as [ | x a IH]; intros [ | z b] Hlen; try discriminate.
  - reflexivity.
  - cbn [vadd combine map fst snd]. rewrite IH by (cbn in Hlen; lia). reflexivity.
Qed.

(** ** addCompNoise *)

(** On positive proportions and a noise vector of the same size, the result
    is [inputComp(c) * exp(noise(c))] over the sum of these products. *)
Lemma addCompNoise_value (inputComp noise : list R) :
  Forall (fun x => 0 < x) inputComp ->
  length noise = length inputComp ->
  let e := map (fun xy => exp (ln (fst xy) + snd xy)) (combine inputComp noise) in
  vsum e <> 0 ->
  addCompNoise inputComp noise = Some (map (fun x => x / vsum e) e).
Proof.
  intros Hpos Hlen e Hsum. unfold addCompNoise.
  rewrite (mapM_rlog _ Hpos). cbn [bind].
  rewrite vadd_same_length by (rewrite length_map; lia). cbn [bind].
  assert (He : map exp (map (fun xy => fst xy + snd xy) (combine (map ln inputComp) noise)) = e).
  { unfold e. clear. revert noise.
    induction inputComp as [ | x l IH]; intros [ | z noise]; try reflexivity.
    cbn [map combine fst snd]. rewrite IH. reflexivity. }
  rewrite He. apply mapM_rdiv. assumption.
Qed.

Lemma exp_all_pos (l : list (R * R)) :
  Forall (fun x => 0 < x) (map (fun xy => exp (ln (fst xy) + snd xy)) l).
Proof.
  induction l as [ | a l IH]; cbn [map]; constructor; [apply exp_pos | assumption].
Qed.

(** C7, as the specification states it, fails on the empty vector: every
    entry of an empty [inputComp] is positive and the noise has the same
    size, yet the returned (empty) vector sums to 0. *)
Lemma addCompNoise_empty_sums_to_zero :
  Forall (fun x => 0 < x) [] /\ length (@nil R) = length (@nil R) /\
  addCompNoise [] [] = Some [] /\ vsum [] <> 1.
Proof.
  repeat split; try constructor.
  rewrite vsum_nil. lra.
Qed.

(** C7, amended: for every non-empty [inputComp] with strictly positive
    entries and every noise vector of the same size, [addCompNoise]
    returns a vector of the size of [inputComp], with strictly positive
    entries that sum to 1. *)
Theorem addCompNoise_composition (inputComp noise : list R) :
  inputComp <> [] ->
  Forall (fun x => 0 < x) inputComp ->
  length noise = length inputComp ->
  exists out,
    addCompNoise inputComp noise = Some out /\
    length out = length inputComp /\
    Forall (fun x => 0 < x) out /\
    vsum out = 1.
Proof.
  intros Hne Hpos Hlen.
  pose (e := map (fun xy => exp (ln (fst xy) + snd xy)) (combine inputComp noise)).
  assert (Hepos : Forall (fun x => 0 < x) e) by apply exp_all_pos.
  assert (Helen : length e = length inputComp).
  { unfold e. rewrite length_map, length_combine. lia. }
  assert (Hsum : 0 < vsum e).
  { apply vsum_pos; [ | assumption].
    intros E. rewrite E in Helen. destruct inputComp; [now elim Hne | discriminate]. }
  exists (map (fun x => x / vsum e) e). repeat split.
  - apply addCompNoise_value; try assumption. fold e. lra.
  - rewrite length_map. assumption.
  - apply Forall_map. revert Hepos. apply Forall_impl.
    intros x Hx. apply Rdiv_lt_0_compat; assumption.
  - rewrite vsum_scaled. field. lra.
Qed.

Lemma addCompNoise_composition_witness :
  exists out,
    addCompNoise [1; 3] [0; 0] = Some out /\
    length out = length [1; 3] /\
    Forall (fun x => 0 < x) out /\
    vsum out = 1.
Proof.
  apply (addCompNoise_composition [1; 3] [0; 0]).
  - discriminate.
  - repeat constructor; lra.
  - reflexivity.
Defined.

(** ** CRmort *)

Lemma upd_at_end_of (pre t : list R) (z x : R) :
  upd (pre ++ z :: t) (length pre) x = Some (pre ++ x :: t).
Proof.
  induction pre as [ | h pre IH]; cbn [app length upd]; [reflexivity | ].
  rewrite IH. reflexivity.
Qed.

Lemma leading_length (minObs : Z) (w : list R) :
  (length (leading minObs w) <= length w)%nat.
Proof.
  induction w as [ | x w IH]; cbn [leading length]; [lia | ].
  destruct (Rge_dec x (IZR minObs)); cbn [length]; lia.
Qed.

Section CRmort_facts.

Variable ageComp : list R.
Variables kage Aplus minObs : Z.

(** The loop entered at relative index [length pre], with the ages still to
    visit holding [rest]: it records the leading part of [rest] after
    [pre] and leaves the other entries at zero. *)
Lemma CRmort_loop_records (rest pre : list R) (a : Z) (abar : R) :
  (a - kage + 1 = Z.of_nat (length pre))%Z ->
  (forall i, (i < length rest)%nat ->
             vget ageComp (a + Z.of_nat i) = nth_error rest i) ->
  CRmort_loop ageComp kage minObs (length rest) a (pre ++ repeat 0 (length rest)) abar
  = Some (pre ++ leading minObs rest
              ++ repeat 0 (length rest - length (leading minObs rest)),
          abar + weighted (Z.of_nat (length pre)) (leading minObs rest)).
Proof.
  revert pre a abar.
  induction rest as [ | x rest IH]; intros pre a abar Hrel Hget.
  - cbn. f_equal. f_equal. lra.
  - cbn [length CRmort_loop repeat].
    assert (H0 := Hget 0%nat). cbn [length nth_error Z.of_nat] in H0.
    rewrite Z.add_0_r in H0. rewrite H0 by lia.
    cbn [bind leading].
    destruct (Rge_dec x (IZR minObs)) as [Hx | Hx].
    + unfold vset. rewrite Hrel.
      destruct (Z.ltb_spec (Z.of_nat (length pre)) 0) as [Hneg | _]; [lia | ].
      rewrite Nat2Z.id, upd_at_end_of. cbn [bind].
      replace (pre ++ x :: repeat 0 (length rest))
        with ((pre ++ [x]) ++ repeat 0 (length rest))
        by (rewrite <- app_assoc; reflexivity).
      rewrite IH.
      * rewrite <- app_assoc. cbn [app length weighted].
        rewrite length_app. cbn [length].
        replace (Z.of_nat (length pre + 1)) with (Z.of_nat (length pre) + 1)%Z by lia.
        f_equal. f_equal. lra.
      * rewrite length_app. cbn [length]. lia.
      * intros i Hi.
        replace (a + 1 + Z.of_nat i)%Z with (a + Z.of_nat (S i))%Z by lia.
        rewrite Hget by (cbn [length]; lia). reflexivity.
    + cbn [app length weighted]. rewrite Nat.sub_0_r. f_equal. f_equal. lra.
Qed.

Hypothesis range : (1 <= kage <= Aplus)%Z /\ (Aplus <= vsize ageComp)%Z.

Lemma ageWindow_length :
  length (ageWindow ageComp kage Aplus) = Z.to_nat (Aplus - kage + 1).
Proof.
  unfold ageWindow, vsize in *.
  rewrite length_firstn, length_skipn. lia.
Qed.

Lemma ageWindow_get (i : nat) :
  (i < length (ageWindow ageComp kage Aplus))%nat ->
  vget ageComp (kage - 1 + Z.of_nat i) = nth_error (ageWindow ageComp kage Aplus) i.
Proof.
  intros Hi. rewrite ageWindow_length in Hi.
  unfold vget, ageWindow.
  destruct (Z.ltb_spec (kage - 1 + Z.of_nat i) 0) as [Hneg | _]; [lia | ].
  rewrite nth_error_firstn, nth_error_skipn.
  destruct (Nat.ltb_spec i (Z.to_nat (Aplus - kage + 1))) as [_ | Hge]; [ | lia].
  f_equal. lia.
Qed.

(** The loop of [CRmort] from the source against the recorded prefix of the
    specification. *)
Lemma CRmort_fill_recorded :
  CRmort_fill ageComp kage Aplus minObs
  = Some (recorded_ageObs ageComp kage Aplus minObs,
          recorded_abar ageComp kage Aplus minObs).
Proof.
  unfold CRmort_fill, vzeros.
  destruct (Z.ltb_spec (Aplus - kage + 1) 0) as [Hneg | _]; [lia | ].
  cbn [bind].
  replace (Z.to_nat (Aplus - (kage - 1))) with (length (ageWindow ageComp kage Aplus))
    by (rewrite ageWindow_length; lia).
  rewrite <- ageWindow_length.
  assert (Hloop := CRmort_loop_records (ageWindow ageComp kage Aplus) [] (kage - 1) 0).
  cbn [app length] in Hloop. rewrite Hloop.
  - unfold recorded_ageObs, recorded_abar, recorded.
    f_equal. f_equal. change (Z.of_nat 0) with 0%Z. lra.
  - lia.
  - apply ageWindow_get.
Qed.

End CRmort_facts.

(** The leading part of a list is one of its prefixes, it holds only entries
    that reach [minObs], and the entry after it, if any, does not. *)
Lemma leading_is_maximal_prefix (minObs : Z) (w : list R) :
  let k := length (leading minObs w) in
  leading minObs w = firstn k w /\
  Forall (fun x => x >= IZR minObs) (firstn k w) /\
  (forall x, nth_error w k = Some x -> x < IZR minObs).
Proof.
  induction w as [ | x w IH]; cbn [leading].
  - cbn. repeat split; [constructor | discriminate].
  - destruct (Rge_dec x (IZR minObs)) as [Hx | Hx].
    + cbn [length firstn nth_error]. destruct IH as (Hpre & Hall & Hstop).
      repeat split.
      * f_equal. assumption.
      * constructor; assumption.
      * assumption.
    + cbn [length firstn nth_error]. repeat split; [constructor | ].
      intros z Hz. inversion Hz. subst. lra.
Qed.




(** C4: with [1 <= kage <= Aplus <= ageComp.size()], the loop of [CRmort]
    records a prefix of the ages [kage .. Aplus]: for some [k], the first
    [k] ages all reach [minObs], each is stored at its relative index and
    adds [relativeIndex * ageComp(a)] to [abar]; the age after them, if
    there is one, is below [minObs]; and every later entry of [ageObs]
    keeps its initial zero. *)
Theorem CRmort_records_maximal_prefix
        (ageComp : list R) (kage Aplus minObs : Z) :
  (1 <= kage <= Aplus)%Z /\ (Aplus <= vsize ageComp)%Z ->
  exists k : nat,
    (k <= length (ageWindow ageComp kage Aplus))%nat /\
    (forall j, (j < length (ageWindow ageComp kage Aplus))%nat ->
       vget ageComp (kage - 1 + Z.of_nat j)
       = nth_error (ageWindow ageComp kage Aplus) j) /\
    Forall (fun x => x >= IZR minObs) (firstn k (ageWindow ageComp kage Aplus)) /\
    (forall x, nth_error (ageWindow ageComp kage Aplus) k = Some x ->
               x < IZR minObs) /\
    CRmort_fill ageComp kage Aplus minObs
    = Some (firstn k (ageWindow ageComp kage Aplus)
              ++ repeat 0 (length (ageWindow ageComp kage Aplus) - k),
            weighted 0 (firstn k (ageWindow ageComp kage Aplus))).
Proof.
  intros Hrange.
  destruct (leading_is_maximal_prefix minObs (ageWindow ageComp kage Aplus))
    as (Hpre & Hall & Hstop).
  exists (length (leading minObs (ageWindow ageComp kage Aplus))).
  split; [apply leading_length | ].
  split; [apply ageWindow_get; assumption | ].
  split; [assumption | ].
  split; [assumption | ].
  rewrite CRmort_fill_recorded by assumption.
  unfold recorded_ageObs, recorded_abar, recorded.
  rewrite <- Hpre. reflexivity.
Qed.

Lemma CRmort_records_maximal_prefix_witness :
  exists k : nat,
    (k <= length (ageWindow [5; 10; 3; 0; 7]%R 1 5))%nat /\
    (forall j, (j < length (ageWindow [5; 10; 3; 0; 7]%R 1 5))%nat ->
       vget [5; 10; 3; 0; 7] (1 - 1 + Z.of_nat j)
       = nth_error (ageWindow [5; 10; 3; 0; 7] 1 5) j) /\
    Forall (fun x => x >= IZR 1) (firstn k (ageWindow [5; 10; 3; 0; 7] 1 5)) /\
    (forall x, nth_error (ageWindow [5; 10; 3; 0; 7] 1 5) k = Some x ->
               x < IZR 1) /\
    CRmort_fill [5; 10; 3; 0; 7] 1 5 1
    = Some (firstn k (ageWindow [5; 10; 3; 0; 7] 1 5)
              ++ repeat 0 (length (ageWindow [5; 10; 3; 0; 7] 1 5) - k),
            weighted 0 (firstn k (ageWindow [5; 10; 3; 0; 7] 1 5))).
Proof.
  apply (CRmort_records_maximal_prefix [5; 10; 3; 0; 7] 1 5 1).
  unfold vsize. cbn [length]. lia.
Defined.

(** What [CRmort] writes once the loop has left [ageObs] and [abar0] and
    the sum [N] of [ageObs] is not zero. *)
Lemma CRmort_after_fill
      (ageComp : list R) (kage Aplus minObs : Z) (ageObs : list R) (abar0 : R) :
  CRmort_fill ageComp kage Aplus minObs = Some (ageObs, abar0) ->
  vsum ageObs <> 0 ->
  CRmort_abar ageComp kage Aplus minObs = Some (vsum ageObs, abar0 / vsum ageObs) /\
  (abar0 / vsum ageObs = 0 -> CRmort ageComp kage Aplus minObs = Some (-1)) /\
  (abar0 / vsum ageObs <> 0 ->
   CRmort ageComp kage Aplus minObs
   = rlog ((1 + abar0 / vsum ageObs - 1 / vsum ageObs) / (abar0 / vsum ageObs))).
Proof.
  intros Hfill HN.
  assert (Habar : CRmort_abar ageComp kage Aplus minObs
                  = Some (vsum ageObs, abar0 / vsum ageObs)).
  { unfold CRmort_abar. rewrite Hfill. cbn [bind].
    rewrite (rdiv_some _ _ HN). reflexivity. }
  split; [assumption | ]. unfold CRmort. rewrite Habar. cbn [bind].
  destruct (Req_dec_T (abar0 / vsum ageObs) 0) as [E | E]; split; intros H;
    try contradiction; try reflexivity.
  rewrite (rdiv_some _ _ HN). cbn [bind].
  rewrite (rdiv_some _ _ E). reflexivity.
Qed.





(** ** solveBaranovDD *)

Section Baranov_facts.

Variables Bstep C M B : R.

(** One pass through the body, entered with [newZ = M + F]. *)
Lemma Baranov_body_step (Zold F : R) :
  M + F <> 0 -> J_of M B F <> 0 ->
  Baranov_body Bstep C M B (mkVars Zold F (M + F))
  = Some (mkVars (M + F) (F_next Bstep C M B F) (M + F_next Bstep C M B F)).
Proof.
  intros HZ HJ. unfold Baranov_body. cbn [vnewZ vF].
  assert (HZ2 : (M + F) ^ 2 <> 0) by (apply pow_nonzero; assumption).
  rewrite (rdiv_some _ _ HZ). cbn [bind].
  rewrite (rdiv_some _ _ HZ2). cbn [bind].
  rewrite (rdiv_some _ _ HZ). cbn [bind].
  unfold J_of in HJ. cbv zeta in HJ.
  rewrite (rdiv_some _ _ HJ). cbn [bind].
  reflexivity.
Qed.

Lemma Baranov_iter_from (k i : nat) :
  (forall j, (i <= j < i + k)%nat ->
             M + F_rec Bstep C M B j <> 0 /\ J_of M B (F_rec Bstep C M B j) <> 0) ->
  Baranov_iter Bstep C M B k (Baranov_at Bstep C M B i) = Some (Baranov_at Bstep C M B (i + k)).
Proof.
  revert i. induction k as [ | k IH]; intros i Hreg.
  - cbn [Baranov_iter]. rewrite Nat.add_0_r. reflexivity.
  - cbn [Baranov_iter]. unfold Baranov_at at 1.
    destruct (Hreg i) as [HZ HJ]; [lia | ].
    rewrite (Baranov_body_step _ _ HZ HJ). cbn [bind].
    change (mkVars (M + F_rec Bstep C M B i)
                   (F_next Bstep C M B (F_rec Bstep C M B i))
                   (M + F_next Bstep C M B (F_rec Bstep C M B i)))
      with (Baranov_at Bstep C M B (S i)).
    rewrite IH.
    + f_equal. f_equal. lia.
    + intros j Hj. apply Hreg. lia.
Qed.

Lemma Baranov_init_value :
  C + B <> 0 -> Baranov_init C M B = Some (Baranov_at Bstep C M B 0).
Proof.
  intros H. unfold Baranov_init. rewrite (rdiv_some _ _ H). reflexivity.
Qed.

(** The variables after [k] iterations of a regular run. *)
Lemma Baranov_run (n k : nat) :
  Baranov_regular Bstep C M B n -> (k <= n)%nat ->
  (s0 <- Baranov_init C M B ;; Baranov_iter Bstep C M B k s0) = Some (Baranov_at Bstep C M B k).
Proof.
  intros [H0 Hreg] Hk. rewrite (Baranov_init_value H0). cbn [bind].
  rewrite Baranov_iter_from; [reflexivity | ].
  intros j Hj. apply Hreg. lia.
Qed.

Lemma solveBaranovDD_value (nIter : Z) :
  Baranov_regular Bstep C M B (Z.to_nat nIter) ->
  solveBaranovDD Bstep C M B nIter
  = Some (M + F_rec Bstep C M B (pred (Z.to_nat nIter)),
          F_rec Bstep C M B (Z.to_nat nIter)).
Proof.
  intros Hreg. unfold solveBaranovDD.
  assert (Hrun := Baranov_run (Z.to_nat nIter) (Z.to_nat nIter) Hreg (Nat.le_refl _)).
  destruct (Baranov_init C M B) as [s0 | ]; [ | discriminate].
  cbn [bind] in *. rewrite Hrun. reflexivity.
Qed.

Lemma Baranov_regular_le (n k : nat) :
  (k <= n)%nat -> Baranov_regular Bstep C M B n -> Baranov_regular Bstep C M B k.
Proof.
  intros Hk [H0 Hreg]. split; [assumption | ].
  intros i Hi. apply Hreg. lia.
Qed.

End Baranov_facts.

(** The run with [Bstep = C = M = B = 1] and one iteration divides by no
    zero, and its Newton update moves [F]. *)
Lemma exp_neg_unit (z : R) : 0 < z -> 0 < exp (- z) < 1.
Proof.
  intros Hz. split; [apply exp_pos | ].
  rewrite <- exp_0. apply exp_increasing. lra.
Qed.

Lemma J_of_unit_negative : J_of 1 1 (1 / (1 + 1)) < 0.
Proof.
  unfold J_of. cbv zeta.
  destruct (exp_neg_unit (1 + 1 / (1 + 1))) as [He0 He1]; [lra | ].
  set (e := exp (- (1 + 1 / (1 + 1)))) in *.
  replace (- (1) * ((1 - e) * 1 / (1 + 1 / (1 + 1)) ^ 2 + e * (1 / (1 + 1)) / (1 + 1 / (1 + 1))))
    with (- ((1 - e) * (4 / 9) + e / 3)) by field.
  lra.
Qed.

Lemma Baranov_regular_unit : Baranov_regular 1 1 1 1 1.
Proof.
  split; [lra | ]. intros i Hi. assert (i = 0%nat) by lia. subst i.
  cbn [F_rec]. split; [lra | ].
  apply Rlt_not_eq, J_of_unit_negative.
Qed.

Lemma F_rec_unit_moves : F_rec 1 1 1 1 1 <> F_rec 1 1 1 1 0.
Proof.
  cbn [F_rec]. unfold F_next. cbv zeta.
  assert (HJ := J_of_unit_negative).
  destruct (exp_neg_unit (1 + 1 / (1 + 1))) as [He0 He1]; [lra | ].
  set (e := exp (- (1 + 1 / (1 + 1)))) in *.
  set (J := J_of 1 1 (1 / (1 + 1))) in *.
  replace (1 * (1 - e) * (1 / (1 + 1)) / (1 + 1 / (1 + 1))) with ((1 - e) / 3) by field.
  assert (Hq : 1 * (1 - (1 - e) / 3) / J < 0).
  { apply Rdiv_pos_neg; lra. }
  lra.
Qed.

(** C2: for [nIter >= 0], when no division is by zero ([C + B <> 0], and
    every [Z_i] and [J_i] of the first [nIter] iterations is non-zero), the
    loop of [solveBaranovDD], with its [newZ] temporary, holds after [k]
    iterations the iterate [F_k] of the recurrence [F_0 = C/(C+B)],
    [F_{i+1} = F_i - Bstep * f_i / J_i], for every [k <= nIter]; the [F]
    it returns is [F_nIter]. *)
Theorem solveBaranovDD_refines_recurrence (Bstep C M B : R) (nIter : Z) :
  (0 <= nIter)%Z ->
  Baranov_regular Bstep C M B (Z.to_nat nIter) ->
  (forall k, (k <= Z.to_nat nIter)%nat ->
     option_map vF (s0 <- Baranov_init C M B ;; Baranov_iter Bstep C M B k s0)
     = Some (F_rec Bstep C M B k)) /\
  option_map snd (solveBaranovDD Bstep C M B nIter)
  = Some (F_rec Bstep C M B (Z.to_nat nIter)).
Proof.
  intros _ Hreg. split.
  - intros k Hk. rewrite (Baranov_run Bstep C M B _ k Hreg Hk). reflexivity.
  - rewrite solveBaranovDD_value by assumption. reflexivity.
Qed.

Lemma solveBaranovDD_refines_recurrence_witness :
  (forall k, (k <= Z.to_nat 1)%nat ->
     option_map vF (s0 <- Baranov_init 1 1 1 ;; Baranov_iter 1 1 1 1 k s0)
     = Some (F_rec 1 1 1 1 k)) /\
  option_map snd (solveBaranovDD 1 1 1 1 1) = Some (F_rec 1 1 1 1 (Z.to_nat 1)).
Proof.
  apply (solveBaranovDD_refines_recurrence 1 1 1 1 1).
  - lia.
  - exact Baranov_regular_unit.
Defined.

(** C9: for [nIter >= 1] (and no division by zero), let [s] hold the
    variables before the last pass through the loop body and [s'] after
    it.  [solveBaranovDD] returns the [Z] and [F] of [s'], and that [Z] is
    [M] plus the [F] of [s], the iterate before the final Newton update:
    whenever the last update changes [F], the returned pair has
    [Z <> M + F]. *)
Theorem solveBaranovDD_Z_lags_F (Bstep C M B : R) (nIter : Z) :
  (1 <= nIter)%Z ->
  Baranov_regular Bstep C M B (Z.to_nat nIter) ->
  exists s s',
    (s0 <- Baranov_init C M B ;; Baranov_iter Bstep C M B (Z.to_nat nIter - 1) s0)
    = Some s /\
    Baranov_body Bstep C M B s = Some s' /\
    solveBaranovDD Bstep C M B nIter = Some (vZ s', vF s') /\
    vZ s' = M + vF s /\
    (vF s' <> vF s -> vZ s' <> M + vF s').
Proof.
  intros Hn Hreg.
  destruct (Z.to_nat nIter) as [ | m] eqn:En; [lia | ].
  exists (Baranov_at Bstep C M B m), (Baranov_at Bstep C M B (S m)).
  split; [ | split; [ | split; [ | split]]].
  - replace (S m - 1)%nat with m by lia.
    apply (Baranov_run Bstep C M B (S m) m Hreg). lia.
  - destruct Hreg as [_ Hreg]. destruct (Hreg m) as [HZ HJ]; [lia | ].
    unfold Baranov_at at 1. rewrite (Baranov_body_step _ _ _ _ _ _ HZ HJ).
    reflexivity.
  - rewrite solveBaranovDD_value by (rewrite En; assumption).
    rewrite En. reflexivity.
  - reflexivity.
  - cbn [Baranov_at vZ vF pred]. intros Hmove E. apply Hmove.
    apply (Rplus_eq_reg_l M). symmetry. exact E.
Qed.

Lemma solveBaranovDD_Z_lags_F_witness :
  exists Zt F, solveBaranovDD 1 1 1 1 1 = Some (Zt, F) /\ Zt <> 1 + F.
Proof.
  destruct (solveBaranovDD_Z_lags_F 1 1 1 1 1) as (s & s' & Hs & _ & Hrun & _ & Hneq).
  - lia.
  - exact Baranov_regular_unit.
  - exists (vZ s'), (vF s'). split; [exact Hrun | ].
    apply Hneq.
    rewrite (solveBaranovDD_value 1 1 1 1 1 Baranov_regular_unit) in Hrun.
    change (Z.to_nat 1 - 1)%nat with 0%nat in Hs.
    rewrite (Baranov_run 1 1 1 1 1 0 Baranov_regular_unit) in Hs by lia.
    inversion Hrun as [[HZ HF]]. inversion Hs as [Hs0].
    cbn [Baranov_at vF Z.to_nat Pos.to_nat Pos.iter_op Nat.add].
    exact F_rec_unit_moves.
Defined.

(** ** negLogLogisticNormal *)

Lemma fold_mult_acc (v : list R) (a : R) : fold_left Rmult v a = a * vprod v.
Proof.
  unfold vprod. revert a. induction v as [ | x v IH]; intros a; cbn [fold_left].
  - lra.
  - rewrite (IH (a * x)), (IH (1 * x)). lra.
Qed.

Lemma vprod_cons (x : R) (v : list R) : vprod (x :: v) = x * vprod v.
Proof.
  unfold vprod at 1. cbn [fold_left]. rewrite fold_mult_acc. lra.
Qed.

Lemma vprod_pos (v : list R) : Forall (fun x => 0 < x) v -> 0 < vprod v.
Proof.
  induction 1 as [ | x v Hx _ IH].
  - unfold vprod. cbn. lra.
  - rewrite vprod_cons. apply Rmult_lt_0_compat; assumption.
Qed.

(** The exponent [1/N] of line 210 is an [int]: 1 for [N = 1], and 0 for
    every larger [N]. *)
Lemma idiv_one (N : Z) :
  (1 <= N)%Z -> idiv 1 N = Some (if (N =? 1)%Z then 1%Z else 0%Z).
Proof.
  intros HN. unfold idiv.
  destruct (Z.eqb_spec N 0) as [E | _]; [lia | ].
  destruct (Z.eqb_spec N 1) as [E | E].
  - subst N. reflexivity.
  - rewrite Z.quot_small by lia. reflexivity.
Qed.

Lemma geoMean_single (v : list R) : geoMean 1 v = Some (vprod v).
Proof.
  unfold geoMean. rewrite idiv_one by lia.
  change (Some (vprod v ^ 1) = Some (vprod v)).
  f_equal. apply pow_1.
Qed.

(** From two entries on, the exponent is 0 and the "geometric mean" is 1,
    whatever the vector. *)
Lemma geoMean_truncated (N : Z) (v : list R) :
  (2 <= N)%Z -> geoMean N v = Some 1.
Proof.
  intros HN. unfold geoMean. rewrite idiv_one by lia.
  destruct (Z.eqb_spec N 1) as [E | _]; [lia | ]. reflexivity.
Qed.

Lemma geoMean_pos (N : Z) (v : list R) :
  (1 <= N)%Z -> 0 < vprod v -> exists t, geoMean N v = Some t /\ 0 < t.
Proof.
  intros HN Hv. destruct (Z.eq_dec N 1) as [E | E].
  - subst N. exists (vprod v). split; [apply geoMean_single | assumption].
  - exists 1. split; [apply geoMean_truncated; lia | lra].
Qed.

Lemma vget_positive (v : list R) (i : Z) :
  Forall (fun x => 0 < x) v -> (0 <= i < vsize v)%Z ->
  exists x, vget v i = Some x /\ 0 < x.
Proof.
  intros Hall Hi. unfold vget, vsize in *.
  destruct (Z.ltb_spec i 0) as [Hneg | _]; [lia | ].
  destruct (nth_error v (Z.to_nat i)) as [x | ] eqn:E.
  - exists x. split; [reflexivity | ].
    rewrite Forall_forall in Hall. apply Hall.
    apply (nth_error_In _ _ E).
  - apply nth_error_None in E. lia.
Qed.

(** With the same vector on both sides every residual is zero, and the
    loop leaves [nld] as it finds it. *)
Lemma nld_loop_same (y : list R) (var t : R) (n : nat) (i : Z) (nld : R) :
  Forall (fun x => 0 < x) y -> 0 < t -> var <> 0 ->
  (0 <= i)%Z -> (i + Z.of_nat n <= vsize y)%Z ->
  nld_loop y y var t t n i nld = Some nld.
Proof.
  intros Hall Ht Hvar. revert i nld.
  induction n as [ | n IH]; intros i nld Hi Hn; cbn [nld_loop]; [reflexivity | ].
  destruct (vget_positive y i Hall) as (x & Hx & Hpos); [lia | ].
  rewrite Hx. cbn [bind].
  rewrite rdiv_some by lra. cbn [bind].
  rewrite rlog_some by (apply Rdiv_lt_0_compat; assumption). cbn [bind].
  rewrite (rdiv_some _ _ Hvar). cbn [bind].
  rewrite IH by lia. f_equal. unfold square. field. assumption.
Qed.

(** C3 fails on the code: for [y = [0.2, 0.8]] the exponent [1/N] is the
    [int] quotient [1/2 = 0], so [ytilde] is [pow(0.16, 0) = 1], whereas
    the geometric mean [0.16^(1/2)] is [0.4]. *)
Theorem geoMean_is_not_geometric_mean :
  geoMean (vsize [1/5; 4/5]) [1/5; 4/5] = Some 1 /\
  geoMean_real [1/5; 4/5] = 2/5 /\
  1 <> 2/5.
Proof.
  split; [ | split].
  - apply geoMean_truncated. unfold vsize. cbn [length]. lia.
  - unfold geoMean_real. rewrite !vprod_cons.
    replace (1 / 5 * (4 / 5 * vprod [])) with (2 / 5 * (2 / 5))
      by (unfold vprod; cbn [fold_left]; field).
    replace (1 / INR (length [1 / 5; 4 / 5])) with (/ 2)
      by (cbn [length INR]; field).
    rewrite Rpower_sqrt by lra. apply sqrt_square. lra.
  - lra.
Qed.

(** C8: for every [y] of size [N >= 1] with strictly positive entries and
    every [var > 0], [negLogLogisticNormal(y, y, var)] returns
    [(N - 1) * log(var) / 2]. *)
Theorem negLogLogisticNormal_same (y : list R) (var : R) :
  (1 <= vsize y)%Z ->
  Forall (fun x => 0 < x) y ->
  0 < var ->
  negLogLogisticNormal y y var = Some (IZR (vsize y - 1) * ln var / 2).
Proof.
  intros HN Hall Hvar. unfold negLogLogisticNormal. cbv zeta.
  rewrite (rlog_some _ Hvar). cbn [bind].
  destruct (geoMean_pos (vsize y) y HN (vprod_pos y Hall)) as (t & Ht & Hpos).
  rewrite Ht. cbn [bind].
  rewrite nld_loop_same; try assumption; try lra.
  - f_equal. lra.
  - lia.
  - unfold vsize. lia.
Qed.

Lemma negLogLogisticNormal_same_witness :
  negLogLogisticNormal [1/5; 4/5] [1/5; 4/5] 3
  = Some (IZR (vsize [1/5; 4/5] - 1) * ln 3 / 2).
Proof.
  apply (negLogLogisticNormal_same [1/5; 4/5] 3).
  - unfold vsize. cbn [length]. lia.
  - repeat constructor; lra.
  - lra.
Defined.


(** * Further properties of the code *)

(** ** posfun: where the value is a real number, and what [pen] does *)

(** X1: for [x <> 0], the value returned by [posfun] fails to be a real
    number exactly when the lower branch is selected and its denominator
    [2 - eps/x] is zero, that is when [x < eps] and [2*x = eps] (the
    returned quotient is then [eps/0]); for every other [x <> 0] it is a
    real number. *)
Theorem posfun_undefined_iff_half (x eps pen : R) :
  x <> 0 ->
  (fst (posfun x eps pen) = None <-> x < eps /\ 2 * x = eps).
Proof.
  intros Hx. destruct (Rlt_le_dec x eps) as [Hlt | Hge].
  - destruct (Req_dec_T (2 * x) eps) as [Hd | Hd].
    + split; [intros _; split; assumption | intros _].
      unfold posfun. cbn [fst]. rewrite CondExpGe_false by assumption.
      rewrite (rdiv_some eps x Hx). cbn [bind].
      replace (2 - eps / x) with 0; [apply rdiv_zero | ].
      subst eps. field. assumption.
    + rewrite posfun_below by assumption.
      split; [discriminate | ]. intros [_ E]. contradiction.
  - unfold posfun. cbn [fst]. rewrite CondExpGe_true by lra.
    split; [discriminate | ]. intros [Hlt _]. lra.
Qed.

Lemma posfun_undefined_iff_half_witness :
  (fst (posfun 2 4 0) = None <-> 2 < 4 /\ 2 * 2 = 4) /\
  (fst (posfun 3 4 0) = None <-> 3 < 4 /\ 2 * 3 = 4).
Proof.
  split.
  - apply (posfun_undefined_iff_half 2 4 0). lra.
  - apply (posfun_undefined_iff_half 3 4 0). lra.
Defined.

Lemma posfun_penalty_frame_cases (x eps pen : R) :
  (x >= eps /\ snd (posfun x eps pen) = pen) \/
  (x < eps /\ snd (posfun x eps pen) = pen + 0.01 * (x - eps) ^ 2).
Proof.
  unfold posfun. cbn [snd]. destruct (Rlt_le_dec x eps) as [H | H].
  - right. split; [assumption | ]. rewrite CondExpLt_true by assumption. reflexivity.
  - left. split; [lra | ]. rewrite CondExpLt_false by lra. lra.
Qed.

(** X2: [posfun] never lowers the penalty, and raises it exactly when [x]
    is below the threshold. *)
Theorem posfun_penalty_monotone (x eps pen : R) :
  pen <= snd (posfun x eps pen) /\
  (x < eps <-> pen < snd (posfun x eps pen)).
Proof.
  destruct (posfun_penalty_frame_cases x eps pen) as [[Hge E] | [Hlt E]]; rewrite E.
  - split; [lra | ]. split; lra.
  - assert (0 < (x - eps) ^ 2).
    { assert (Hd : x - eps <> 0) by lra.
      apply Rsqr_pos_lt in Hd. unfold Rsqr in Hd. cbn [pow]. lra. }
    split; [lra | ]. split; intros _; [lra | assumption].
Qed.

(** X3: for [eps > 0] and a negative [x], the value returned by [posfun]
    lies strictly between 0 and [eps/2]. *)
Theorem posfun_negative_input_bounds (x eps pen : R) :
  0 < eps -> x < 0 ->
  exists v, fst (posfun x eps pen) = Some v /\ 0 < v < eps / 2.
Proof.
  intros He Hx. exists (eps * x / (2 * x - eps)).
  split; [apply posfun_below; lra | ].
  apply (posfun_value_sign x eps); lra.
Qed.

Lemma posfun_negative_input_bounds_witness :
  exists v, fst (posfun (-1) 4 0) = Some v /\ 0 < v < 4 / 2.
Proof.
  apply (posfun_negative_input_bounds (-1) 4 0); lra.
Defined.

(** ** square *)

(** X4: [square] is [x * x], it is never negative, and it does not see the
    sign of its argument; the vectorized form keeps the size and squares
    entry by entry. *)
Theorem square_vec_entries (v : list R) :
  length (square_vec v) = length v /\
  Forall (fun s => 0 <= s) (square_vec v) /\
  (forall i x, nth_error v i = Some x ->
               nth_error (square_vec v) i = Some (x * x)) /\
  square_vec (map Ropp v) = square_vec v.
Proof.
  unfold square_vec. split; [apply length_map | ]. split; [ | split].
  - apply Forall_map, Forall_forall. intros x _. unfold square. apply pow2_ge_0.
  - intros i x Hx. rewrite nth_error_map, Hx. cbn [option_map].
    f_equal. unfold square. ring.
  - rewrite map_map. apply map_ext. intros x. unfold square. ring.
Qed.

(** ** addCompNoise: zero noise, shifted noise, rescaled input *)

Lemma vsum_times (k : R) (v : list R) :
  vsum (map (fun x => x * k) v) = vsum v * k.
Proof.
  induction v as [ | x v IH]; cbn [map].
  - rewrite vsum_nil. lra.
  - rewrite !vsum_cons, IH. lra.
Qed.

(** On positive proportions and noise of the same size the result is the
    normalised vector of the [inputComp(c) * exp(noise(c))], also for the
    empty vector. *)
Lemma addCompNoise_normalises (inputComp noise : list R) :
  Forall (fun x => 0 < x) inputComp ->
  length noise = length inputComp ->
  addCompNoise inputComp noise
  = Some (map (fun x =>
                 x / vsum (map (fun xy => exp (ln (fst xy) + snd xy))
                               (combine inputComp noise)))
              (map (fun xy => exp (ln (fst xy) + snd xy)) (combine inputComp noise))).
Proof.
  intros Hpos Hlen. destruct inputComp as [ | x l].
  - destruct noise; [reflexivity | discriminate].
  - apply addCompNoise_value; try assumption.
    apply Rgt_not_eq, Rlt_gt, vsum_pos; [ | apply exp_all_pos].
    destruct noise; discriminate.
Qed.

(** Two runs whose exponentiated vectors differ by one positive factor
    return the same composition. *)
Lemma addCompNoise_same_up_to_factor (in1 n1 in2 n2 : list R) (k : R) :
  Forall (fun x => 0 < x) in1 -> length n1 = length in1 ->
  Forall (fun x => 0 < x) in2 -> length n2 = length in2 ->
  0 < k ->
  map (fun xy => exp (ln (fst xy) + snd xy)) (combine in2 n2)
  = map (fun x => x * k) (map (fun xy => exp (ln (fst xy) + snd xy)) (combine in1 n1)) ->
  addCompNoise in2 n2 = addCompNoise in1 n1.
Proof.
  intros Hp1 Hl1 Hp2 Hl2 Hk He.
  rewrite (addCompNoise_normalises in1 n1 Hp1 Hl1).
  rewrite (addCompNoise_normalises in2 n2 Hp2 Hl2).
  assert (Hpos := exp_all_pos (combine in1 n1)).
  set (e := map (fun xy => exp (ln (fst xy) + snd xy)) (combine in1 n1)) in *.
  rewrite He, vsum_times, map_map. f_equal.
  destruct e as [ | z e]; [reflexivity | ].
  assert (0 < vsum (z :: e)) by (apply vsum_pos; [discriminate | assumption]).
  apply map_ext. intros a. field. split; lra.
Qed.

Lemma noised_by_zero (l : list R) :
  Forall (fun x => 0 < x) l ->
  map (fun xy => exp (ln (fst xy) + snd xy)) (combine l (repeat 0 (length l))) = l.
Proof.
  induction 1 as [ | x l Hx _ IH]; [reflexivity | ].
  cbn [length repeat combine map fst snd]. rewrite IH. f_equal.
  rewrite Rplus_0_r. apply exp_ln. assumption.
Qed.

(** X5: with a zero noise vector [addCompNoise] returns [inputComp]
    divided by its sum; a composition that already sums to 1 comes back
    unchanged. *)
Theorem addCompNoise_zero_noise (inputComp : list R) :
  Forall (fun x => 0 < x) inputComp ->
  addCompNoise inputComp (repeat 0 (length inputComp))
  = Some (map (fun x => x / vsum inputComp) inputComp) /\
  (vsum inputComp = 1 ->
   addCompNoise inputComp (repeat 0 (length inputComp)) = Some inputComp).
Proof.
  intros Hpos.
  assert (E : addCompNoise inputComp (repeat 0 (length inputComp))
              = Some (map (fun x => x / vsum inputComp) inputComp)).
  { rewrite addCompNoise_normalises by (try assumption; apply repeat_length).
    rewrite noised_by_zero by assumption. reflexivity. }
  split; [assumption | ]. intros Hone. rewrite E, Hone. f_equal.
  rewrite <- (map_id inputComp) at 2. apply map_ext. intros a. field.
Qed.

Lemma addCompNoise_zero_noise_witness :
  addCompNoise [1; 3] (repeat 0 (length [1; 3]))
  = Some (map (fun x => x / vsum [1; 3]) [1; 3]) /\
  (vsum [1; 3] = 1 ->
   addCompNoise [1; 3] (repeat 0 (length [1; 3])) = Some [1; 3]).
Proof.
  apply (addCompNoise_zero_noise [1; 3]).
  repeat constructor; lra.
Defined.

(** X6: adding one constant [c] to every entry of the noise does not
    change the result. *)
Theorem addCompNoise_noise_shift (inputComp noise : list R) (c : R) :
  Forall (fun x => 0 < x) inputComp ->
  length noise = length inputComp ->
  addCompNoise inputComp (map (fun n => n + c) noise)
  = addCompNoise inputComp noise.
Proof.
  intros Hpos Hlen.
  apply (addCompNoise_same_up_to_factor inputComp noise _ _ (exp c));
    try assumption.
  - rewrite length_map. assumption.
  - apply exp_pos.
  - clear. revert noise.
    induction inputComp as [ | x l IH]; intros [ | n noise]; try reflexivity.
    cbn [map combine fst snd]. rewrite IH. f_equal.
    rewrite <- exp_plus. f_equal. lra.
Qed.

Lemma addCompNoise_noise_shift_witness :
  addCompNoise [1; 3] (map (fun n => n + 7) [2; 5]) = addCompNoise [1; 3] [2; 5].
Proof.
  apply (addCompNoise_noise_shift [1; 3] [2; 5] 7).
  - repeat constructor; lra.
  - reflexivity.
Defined.

(** X7: multiplying every entry of [inputComp] by one positive factor [k]
    does not change the result: the input need not be normalised. *)
Theorem addCompNoise_input_scale (inputComp noise : list R) (k : R) :
  0 < k ->
  Forall (fun x => 0 < x) inputComp ->
  length noise = length inputComp ->
  addCompNoise (map (fun x => k * x) inputComp) noise
  = addCompNoise inputComp noise.
Proof.
  intros Hk Hpos Hlen.
  apply (addCompNoise_same_up_to_factor inputComp noise _ _ k);
    try assumption.
  - apply Forall_map. revert Hpos. apply Forall_impl.
    intros x Hx. apply Rmult_lt_0_compat; assumption.
  - rewrite length_map. assumption.
  - clear Hlen. revert noise.
    induction Hpos as [ | x l Hx _ IH]; intros [ | n noise]; try reflexivity.
    cbn [map combine fst snd]. rewrite IH. f_equal.
    rewrite ln_mult by assumption.
    rewrite !exp_plus, !exp_ln by assumption. ring.
Qed.

Lemma addCompNoise_input_scale_witness :
  addCompNoise (map (fun x => 10 * x) [1; 3]) [2; 5] = addCompNoise [1; 3] [2; 5].
Proof.
  apply (addCompNoise_input_scale [1; 3] [2; 5] 10).
  - lra.
  - repeat constructor; lra.
  - reflexivity.
Defined.

(** ** CRmort: what is written for zero, one and more recorded ages *)

Lemma leading_all_reach (minObs : Z) (w : list R) :
  Forall (fun x => x >= IZR minObs) (leading minObs w).
Proof.
  induction w as [ | x w IH]; cbn [leading]; [constructor | ].
  destruct (Rge_dec x (IZR minObs)); constructor; assumption.
Qed.

Lemma vsum_nonneg (v : list R) : Forall (fun x => 0 <= x) v -> 0 <= vsum v.
Proof.
  induction 1 as [ | x v Hx _ IH]; [rewrite vsum_nil; lra | ].
  rewrite vsum_cons. lra.
Qed.

Lemma weighted_nonneg (j : Z) (v : list R) :
  (0 <= j)%Z -> Forall (fun x => 0 <= x) v -> 0 <= weighted j v.
Proof.
  intros Hj Hall. revert j Hj.
  induction Hall as [ | x v Hx _ IH]; intros j Hj; cbn [weighted]; [lra | ].
  assert (0 <= IZR j) by (apply IZR_le; assumption).
  assert (0 <= weighted (j + 1) v) by (apply IH; lia).
  nra.
Qed.

(** When the recorded entries sum to zero, [abar /= N] is not a real
    number and neither is what [CRmort] writes. *)
Lemma CRmort_zero_sum
      (ageComp : list R) (kage Aplus minObs : Z) (ageObs : list R) (abar0 : R) :
  CRmort_fill ageComp kage Aplus minObs = Some (ageObs, abar0) ->
  vsum ageObs = 0 ->
  CRmort ageComp kage Aplus minObs = None.
Proof.
  intros Hfill HN. unfold CRmort, CRmort_abar. rewrite Hfill. cbn [bind].
  rewrite HN, rdiv_zero. reflexivity.
Qed.

Section CRmort_cases.

Variable ageComp : list R.
Variables kage Aplus minObs : Z.
Hypothesis range : (1 <= kage <= Aplus)%Z /\ (Aplus <= vsize ageComp)%Z.

Lemma ageWindow_first (x0 : R) :
  vget ageComp (kage - 1) = Some x0 ->
  exists rest, ageWindow ageComp kage Aplus = x0 :: rest.
Proof.
  intros H0.
  assert (Hlen := ageWindow_length ageComp kage Aplus range).
  assert (Hget := ageWindow_get ageComp kage Aplus range 0).
  destruct (ageWindow ageComp kage Aplus) as [ | z rest].
  - cbn [length] in Hlen. lia.
  - cbn [length nth_error Z.of_nat] in Hget. rewrite Z.add_0_r, H0 in Hget.
    exists rest. f_equal. specialize (Hget ltac:(lia)). congruence.
Qed.

Lemma ageWindow_second (x0 x1 : R) :
  (kage < Aplus)%Z ->
  vget ageComp (kage - 1) = Some x0 ->
  vget ageComp kage = Some x1 ->
  exists rest, ageWindow ageComp kage Aplus = x0 :: x1 :: rest.
Proof.
  intros Hlt H0 H1. destruct (ageWindow_first x0 H0) as (rest & E).
  assert (Hlen := ageWindow_length ageComp kage Aplus range).
  assert (Hget := ageWindow_get ageComp kage Aplus range 1).
  rewrite E in Hlen, Hget. destruct rest as [ | z rest].
  - cbn [length] in Hlen. lia.
  - cbn [length nth_error] in Hget.
    replace (kage - 1 + Z.of_nat 1)%Z with kage in Hget by lia.
    rewrite H1 in Hget. specialize (Hget ltac:(lia)).
    exists rest. rewrite E. congruence.
Qed.

Lemma ageWindow_single (x0 : R) :
  Aplus = kage ->
  vget ageComp (kage - 1) = Some x0 ->
  ageWindow ageComp kage Aplus = [x0].
Proof.
  intros Heq H0. destruct (ageWindow_first x0 H0) as (rest & E).
  assert (Hlen := ageWindow_length ageComp kage Aplus range).
  rewrite E in Hlen. cbn [length] in Hlen.
  destruct rest; [assumption | cbn [length] in Hlen; lia].
Qed.

(** Nothing recorded. *)
Lemma CRmort_fill_nothing (x0 : R) :
  vget ageComp (kage - 1) = Some x0 -> x0 < IZR minObs ->
  CRmort_fill ageComp kage Aplus minObs
  = Some (repeat 0 (Z.to_nat (Aplus - kage + 1)), 0).
Proof.
  intros H0 Hlow. rewrite CRmort_fill_recorded by assumption.
  unfold recorded_ageObs, recorded_abar, recorded.
  rewrite ageWindow_length by assumption.
  destruct (ageWindow_first x0 H0) as (rest & E). rewrite E.
  cbn [leading]. destruct (Rge_dec x0 (IZR minObs)) as [Hge | _]; [lra | ].
  cbn [app length weighted]. rewrite Nat.sub_0_r. reflexivity.
Qed.

(** Only the first age recorded. *)
Lemma CRmort_fill_one (x0 : R) :
  vget ageComp (kage - 1) = Some x0 -> x0 >= IZR minObs ->
  Aplus = kage \/ (exists x1, vget ageComp kage = Some x1 /\ x1 < IZR minObs) ->
  exists n, CRmort_fill ageComp kage Aplus minObs = Some (x0 :: repeat 0 n, 0).
Proof.
  intros H0 Hge Hstop. rewrite CRmort_fill_recorded by assumption.
  unfold recorded_ageObs, recorded_abar, recorded.
  assert (E : leading minObs (ageWindow ageComp kage Aplus) = [x0]).
  { destruct (Z.eq_dec Aplus kage) as [Heq | Hne].
    - rewrite (ageWindow_single x0 Heq H0). cbn [leading].
      destruct (Rge_dec x0 (IZR minObs)); [reflexivity | contradiction].
    - destruct Hstop as [Heq | (x1 & H1 & Hlow)]; [contradiction | ].
      destruct (ageWindow_second x0 x1 ltac:(lia) H0 H1) as (rest & Ew).
      rewrite Ew. cbn [leading].
      destruct (Rge_dec x0 (IZR minObs)); [ | contradiction].
      destruct (Rge_dec x1 (IZR minObs)); [lra | reflexivity]. }
  rewrite E. cbn [app length weighted].
  eexists. f_equal. f_equal. lra.
Qed.

End CRmort_cases.

(** X8: in range, when the first age [ageComp(kage-1)] is below [minObs]
    no age is recorded: [ageObs] stays at zero, [N = 0], and [abar /= N]
    is [0/0].  What [CRmort] writes is then not a real number; in
    particular it is not the sentinel [-1]. *)
Theorem CRmort_nothing_recorded
        (ageComp : list R) (kage Aplus minObs : Z) (x0 : R) :
  (1 <= kage <= Aplus)%Z /\ (Aplus <= vsize ageComp)%Z ->
  vget ageComp (kage - 1) = Some x0 ->
  x0 < IZR minObs ->
  CRmort_fill ageComp kage Aplus minObs
  = Some (repeat 0 (Z.to_nat (Aplus - kage + 1)), 0) /\
  CRmort ageComp kage Aplus minObs = None.
Proof.
  intros Hrange H0 Hlow.
  assert (Hfill := CRmort_fill_nothing ageComp kage Aplus minObs Hrange x0 H0 Hlow).
  split; [assumption | ].
  apply (CRmort_zero_sum _ _ _ _ _ _ Hfill). apply vsum_zeros.
Qed.

Lemma CRmort_nothing_recorded_witness :
  CRmort_fill [0; 5; 3] 1 3 1 = Some (repeat 0 (Z.to_nat (3 - 1 + 1)), 0) /\
  CRmort [0; 5; 3] 1 3 1 = None.
Proof.
  apply (CRmort_nothing_recorded [0; 5; 3] 1 3 1 0).
  - unfold vsize. cbn [length]. lia.
  - reflexivity.
  - lra.
Defined.

(** X9: in range, when the first age reaches [minObs] with a non-zero
    entry and the loop stops right after it (it was the only age, or the
    second is below [minObs]), [N] is that entry, [abar] is 0 and [CRmort]
    writes the sentinel [-1]. *)
Theorem CRmort_single_age_sentinel
        (ageComp : list R) (kage Aplus minObs : Z) (x0 : R) :
  (1 <= kage <= Aplus)%Z /\ (Aplus <= vsize ageComp)%Z ->
  vget ageComp (kage - 1) = Some x0 ->
  x0 >= IZR minObs ->
  x0 <> 0 ->
  Aplus = kage \/ (exists x1, vget ageComp kage = Some x1 /\ x1 < IZR minObs) ->
  CRmort_abar ageComp kage Aplus minObs = Some (x0, 0) /\
  CRmort ageComp kage Aplus minObs = Some (-1).
Proof.
  intros Hrange H0 Hge Hnz Hstop.
  destruct (CRmort_fill_one ageComp kage Aplus minObs Hrange x0 H0 Hge Hstop)
    as (n & Hfill).
  assert (HN : vsum (x0 :: repeat 0 n) = x0).
  { rewrite vsum_cons, vsum_zeros. lra. }
  destruct (CRmort_after_fill _ _ _ _ _ _ Hfill) as (Habar & Hzero & _).
  - rewrite HN. assumption.
  - split.
    + rewrite Habar, HN. f_equal. f_equal. unfold Rdiv. lra.
    + apply Hzero. unfold Rdiv. lra.
Qed.

Lemma CRmort_single_age_sentinel_witness :
  CRmort_abar [5; 0; 7] 1 3 1 = Some (5, 0) /\
  CRmort [5; 0; 7] 1 3 1 = Some (-1).
Proof.
  apply (CRmort_single_age_sentinel [5; 0; 7] 1 3 1 5).
  - unfold vsize. cbn [length]. lia.
  - reflexivity.
  - lra.
  - lra.
  - right. exists 0. split; [reflexivity | lra].
Defined.

(** X10: in range, with [minObs >= 1] and the first two ages reaching
    [minObs], [CRmort] writes a real and strictly positive estimate. *)
Theorem CRmort_positive_estimate
        (ageComp : list R) (kage Aplus minObs : Z) (x0 x1 : R) :
  (1 <= kage <= Aplus)%Z /\ (Aplus <= vsize ageComp)%Z ->
  (1 <= minObs)%Z ->
  (kage < Aplus)%Z ->
  vget ageComp (kage - 1) = Some x0 -> x0 >= IZR minObs ->
  vget ageComp kage = Some x1 -> x1 >= IZR minObs ->
  exists z, CRmort ageComp kage Aplus minObs = Some z /\ 0 < z.
Proof.
  intros Hrange Hmin Hlt H0 Hge0 H1 Hge1.
  assert (Hone : 1 <= IZR minObs) by (apply IZR_le; assumption).
  assert (Hfill := CRmort_fill_recorded ageComp kage Aplus minObs Hrange).
  unfold recorded_ageObs, recorded_abar, recorded in Hfill.
  destruct (ageWindow_second ageComp kage Aplus Hrange x0 x1 Hlt H0 H1)
    as (rest & Ew).
  rewrite Ew in Hfill. cbn [leading] in Hfill.
  destruct (Rge_dec x0 (IZR minObs)); [ | contradiction].
  destruct (Rge_dec x1 (IZR minObs)); [ | contradiction].
  assert (Ht : Forall (fun x => 0 <= x) (leading minObs rest)).
  { generalize (leading_all_reach minObs rest). apply Forall_impl.
    intros a Ha. lra. }
  set (t := leading minObs rest) in *.
  cbn [weighted] in Hfill.
  assert (Hw := weighted_nonneg (0 + 1 + 1) t ltac:(lia) Ht).
  assert (Hs := vsum_nonneg t Ht).
  set (ageObs := (x0 :: x1 :: t) ++ _) in Hfill.
  set (abar0 := IZR 0 * x0 + _) in Hfill.
  assert (HN : 2 <= vsum ageObs).
  { unfold ageObs. rewrite vsum_app, !vsum_cons, vsum_zeros. lra. }
  assert (Ha : 1 <= abar0).
  { unfold abar0. change (IZR (0 + 1)) with 1. lra. }
  destruct (CRmort_after_fill _ _ _ _ _ _ Hfill) as (_ & _ & Hlog); [lra | ].
  assert (Hi : 0 < 1 / vsum ageObs < 1).
  { split; [apply Rdiv_lt_0_compat; lra | ].
    apply (Rmult_lt_reg_r (vsum ageObs)); [lra | ].
    replace (1 / vsum ageObs * vsum ageObs) with 1 by (field; lra). lra. }
  assert (Hq : 0 < abar0 / vsum ageObs) by (apply Rdiv_lt_0_compat; lra).
  set (a := abar0 / vsum ageObs) in *. set (i := 1 / vsum ageObs) in *.
  assert (Hbig : 1 < (1 + a - i) / a).
  { apply (Rmult_lt_reg_r a); [assumption | ].
    replace ((1 + a - i) / a * a) with (1 + a - i) by (field; lra). lra. }
  exists (ln ((1 + a - i) / a)). split.
  - rewrite Hlog by lra. apply rlog_some. lra.
  - rewrite <- ln_1. apply ln_increasing; lra.
Qed.

Lemma CRmort_positive_estimate_witness :
  exists z, CRmort [5; 10; 3; 0; 7] 1 5 1 = Some z /\ 0 < z.
Proof.
  apply (CRmort_positive_estimate [5; 10; 3; 0; 7] 1 5 1 5 10).
  - unfold vsize. cbn [length]. lia.
  - lia.
  - lia.
  - reflexivity.
  - lra.
  - reflexivity.
  - lra.
Defined.

(** ** solveBaranovDD: no iteration, no catch, and the roots of the catch
    equation *)

(** X11: when [C + B = 0] the initial [F = C/(C+B)] is a division by zero
    and nothing [solveBaranovDD] leaves in [Z] and [F] is a real number,
    whatever [nIter]; otherwise, with [nIter <= 0] the loop is skipped and
    the initial approximation is returned, [F = C/(C+B)] and [Z = M + F]. *)
Theorem solveBaranovDD_initial (Bstep C M B : R) (nIter : Z) :
  (C + B = 0 -> solveBaranovDD Bstep C M B nIter = None) /\
  (C + B <> 0 -> (nIter <= 0)%Z ->
   solveBaranovDD Bstep C M B nIter = Some (M + C / (C + B), C / (C + B))).
Proof.
  split.
  - intros E. unfold solveBaranovDD, Baranov_init. rewrite E, rdiv_zero. reflexivity.
  - intros H0 Hn. rewrite solveBaranovDD_value.
    + replace (Z.to_nat nIter) with 0%nat by lia. reflexivity.
    + split; [assumption | ]. intros i Hi. lia.
Qed.

Lemma solveBaranovDD_initial_witness :
  solveBaranovDD 1 (-1) 1 1 3 = None /\
  solveBaranovDD 1 1 1 1 0 = Some (1 + 1 / (1 + 1), 1 / (1 + 1)).
Proof.
  split.
  - apply (solveBaranovDD_initial 1 (-1) 1 1 3). lra.
  - apply (solveBaranovDD_initial 1 1 1 1 0); [lra | lia].
Defined.

Lemma F_rec_zero_catch (Bstep M B : R) (k : nat) : F_rec Bstep 0 M B k = 0.
Proof.
  induction k as [ | k IH]; cbn [F_rec].
  - unfold Rdiv. lra.
  - rewrite IH. unfold F_next. cbv zeta. unfold Rdiv. lra.
Qed.

Lemma J_of_zero_F (M B : R) : B <> 0 -> M <> 0 -> J_of M B 0 <> 0.
Proof.
  intros HB HM. unfold J_of. cbv zeta.
  rewrite Rplus_0_r.
  replace (- B * ((1 - exp (- M)) * M / M ^ 2 + exp (- M) * 0 / M))
    with (- B * ((1 - exp (- M)) / M)) by (field; assumption).
  assert (He : 1 - exp (- M) <> 0).
  { intros E. apply HM. assert (E' : exp (- M) = exp 0) by (rewrite exp_0; lra).
    apply exp_inv in E'. lra. }
  apply Rmult_integral_contrapositive_currified; [lra | ].
  unfold Rdiv. apply Rmult_integral_contrapositive_currified; [assumption | ].
  apply Rinv_neq_0_compat. assumption.
Qed.

(** X12: with no catch ([C = 0]) and [B <> 0], [M <> 0], every iterate is
    0: for every [nIter] and [Bstep], [solveBaranovDD] returns [F = 0] and
    [Z = M]. *)
Theorem solveBaranovDD_zero_catch (Bstep M B : R) (nIter : Z) :
  B <> 0 -> M <> 0 ->
  solveBaranovDD Bstep 0 M B nIter = Some (M, 0).
Proof.
  intros HB HM. rewrite solveBaranovDD_value.
  - rewrite !F_rec_zero_catch. f_equal. f_equal. lra.
  - split; [lra | ]. intros i _. rewrite F_rec_zero_catch.
    split; [lra | apply J_of_zero_F; assumption].
Qed.

Lemma solveBaranovDD_zero_catch_witness :
  solveBaranovDD (1 / 2) 0 (1 / 5) 100 20 = Some (1 / 5, 0).
Proof.
  apply (solveBaranovDD_zero_catch (1 / 2) (1 / 5) 100 20); lra.
Defined.

(** X13: a pass through the loop body entered with [newZ = M + F] (and no
    division by zero, [Bstep <> 0]) leaves [F] unchanged exactly when [F]
    solves the catch equation [B*(1 - exp(-Z))*F/Z = C] with [Z = M + F]:
    the roots of the Baranov equation are the fixed points of the
    update. *)
Theorem Baranov_body_fixed_iff_root (Bstep C M B Zold F : R) :
  M + F <> 0 -> J_of M B F <> 0 -> Bstep <> 0 ->
  exists s',
    Baranov_body Bstep C M B (mkVars Zold F (M + F)) = Some s' /\
    (vF s' = F <-> B * (1 - exp (- (M + F))) * F / (M + F) = C).
Proof.
  intros HZ HJ HB.
  exists (mkVars (M + F) (F_next Bstep C M B F) (M + F_next Bstep C M B F)).
  split; [apply Baranov_body_step; assumption | ].
  cbn [vF]. unfold F_next. cbv zeta.
  set (tmp := B * (1 - exp (- (M + F))) * F / (M + F)).
  set (J := J_of M B F) in *.
  split.
  - intros E.
    assert (Hd : Bstep * (C - tmp) / J = 0) by lra.
    unfold Rdiv in Hd.
    apply Rmult_integral in Hd. destruct Hd as [Hd | Hd].
    + apply Rmult_integral in Hd. destruct Hd as [Hd | Hd]; [contradiction | lra].
    + exfalso. revert Hd. apply Rinv_neq_0_compat. assumption.
  - intros E. rewrite E. unfold Rdiv. lra.
Qed.

Lemma Baranov_body_fixed_iff_root_witness :
  exists s',
    Baranov_body 1 1 1 1 (mkVars 0 (1 / (1 + 1)) (1 + 1 / (1 + 1))) = Some s' /\
    (vF s' = 1 / (1 + 1)
     <-> 1 * (1 - exp (- (1 + 1 / (1 + 1)))) * (1 / (1 + 1)) / (1 + 1 / (1 + 1)) = 1).
Proof.
  apply (Baranov_body_fixed_iff_root 1 1 1 1 0 (1 / (1 + 1))).
  - lra.
  - apply Rlt_not_eq, J_of_unit_negative.
  - lra.
Defined.

(** ** negLogLogisticNormal: the value it computes *)

Lemma geoMean_explicit (N : Z) (v : list R) :
  (1 <= N)%Z -> geoMean N v = Some (if (N =? 1)%Z then vprod v else 1).
Proof.
  intros HN. destruct (Z.eqb_spec N 1) as [E | E].
  - subst N. apply geoMean_single.
  - apply geoMean_truncated. lia.
Qed.

Lemma vget_nth_error (v : list R) (k : nat) :
  vget v (0 + Z.of_nat k) = nth_error v k.
Proof.
  unfold vget. destruct (Z.ltb_spec (0 + Z.of_nat k) 0) as [Hneg | _]; [lia | ].
  f_equal. lia.
Qed.

(** The loop over the entries [ys] of [y] and [ps] of [p] from index [i]
    on adds one squared residual per entry to [nld]. *)
Lemma nld_loop_sum (y p : list R) (var ty tp : R) (ys : list R) :
  0 < ty -> 0 < tp -> var <> 0 ->
  forall (ps : list R) (i : Z) (nld : R),
  length ps = length ys ->
  Forall (fun x => 0 < x) ys -> Forall (fun x => 0 < x) ps ->
  (forall k, (k < length ys)%nat ->
             vget y (i + Z.of_nat k) = nth_error ys k /\
             vget p (i + Z.of_nat k) = nth_error ps k) ->
  nld_loop y p var ty tp (length ys) i nld
  = Some (nld + vsum (map (fun yp => square (ln (fst yp / ty) - ln (snd yp / tp)) / 2 / var)
                          (combine ys ps))).
Proof.
  intros Hty Htp Hvar.
  induction ys as [ | a ys IH]; intros ps i nld Hlen Hys Hps Hget.
  - cbn. f_equal. lra.
  - destruct ps as [ | b ps]; [discriminate | ].
    inversion Hys as [ | ? ? Ha Hys']. inversion Hps as [ | ? ? Hb Hps']. subst.
    cbn [length nld_loop].
    destruct (Hget 0%nat) as [Hy0 Hp0]; [cbn [length]; lia | ].
    cbn [Z.of_nat nth_error] in Hy0, Hp0. rewrite Z.add_0_r in Hy0, Hp0.
    rewrite Hy0. cbn [bind]. rewrite rdiv_some by lra. cbn [bind].
    rewrite rlog_some by (apply Rdiv_lt_0_compat; assumption). cbn [bind].
    rewrite Hp0. cbn [bind]. rewrite rdiv_some by lra. cbn [bind].
    rewrite rlog_some by (apply Rdiv_lt_0_compat; assumption). cbn [bind].
    rewrite (rdiv_some _ _ Hvar). cbn [bind].
    rewrite (IH ps).
    + cbn [combine map fst snd]. rewrite vsum_cons. f_equal. lra.
    + cbn [length] in Hlen. lia.
    + assumption.
    + assumption.
    + intros k Hk.
      replace (i + 1 + Z.of_nat k)%Z with (i + Z.of_nat (S k))%Z by lia.
      apply (Hget (S k)). cbn [length]. lia.
Qed.

(** On positive vectors of one size [N >= 1] and a positive variance: the
    variance term plus half the squared residuals over [var], the
    residuals being taken against what lines 210-211 compute. *)
Lemma negLogLogisticNormal_value (y p : list R) (var : R) :
  (1 <= vsize y)%Z -> length p = length y ->
  Forall (fun x => 0 < x) y -> Forall (fun x => 0 < x) p ->
  0 < var ->
  negLogLogisticNormal y p var
  = Some (0 + IZR (vsize y - 1) * ln var / 2
          + vsum (map (fun yp =>
                         square (ln (fst yp / (if (vsize y =? 1)%Z then vprod y else 1))
                                 - ln (snd yp / (if (vsize y =? 1)%Z then vprod p else 1)))
                         / 2 / var)
                      (combine y p))).
Proof.
  intros HN Hlen Hy Hp Hvar. unfold negLogLogisticNormal. cbv zeta.
  rewrite (rlog_some _ Hvar). cbn [bind].
  rewrite !geoMean_explicit by assumption. cbn [bind].
  assert (Hty : 0 < (if (vsize y =? 1)%Z then vprod y else 1)).
  { destruct (vsize y =? 1)%Z; [apply vprod_pos; assumption | lra]. }
  assert (Htp : 0 < (if (vsize y =? 1)%Z then vprod p else 1)).
  { destruct (vsize y =? 1)%Z; [apply vprod_pos; assumption | lra]. }
  unfold vsize at 3. rewrite Nat2Z.id.
  apply nld_loop_sum; try assumption; try lra.
  intros k _. split; apply vget_nth_error.
Qed.

(** X14: for a single class ([N = 1]) the value is 0, whatever the
    positive [y(0)], [p(0)] and [var]. *)
Theorem negLogLogisticNormal_single (a b var : R) :
  0 < a -> 0 < b -> 0 < var ->
  negLogLogisticNormal [a] [b] var = Some 0.
Proof.
  intros Ha Hb Hvar.
  rewrite negLogLogisticNormal_value;
    [ | unfold vsize; cbn [length]; lia | reflexivity
      | repeat constructor; assumption | repeat constructor; assumption
      | assumption ].
  change (vsize [a] =? 1)%Z with true. change (vsize [a] - 1)%Z with 0%Z.
  cbn [combine map fst snd]. rewrite !vprod_cons, vsum_cons, vsum_nil.
  replace (a / (a * vprod [])) with 1 by (unfold vprod; cbn [fold_left]; field; lra).
  replace (b / (b * vprod [])) with 1 by (unfold vprod; cbn [fold_left]; field; lra).
  rewrite ln_1. f_equal. unfold square. field. lra.
Qed.

Lemma negLogLogisticNormal_single_witness :
  negLogLogisticNormal [3] [7] 2 = Some 0.
Proof.
  apply (negLogLogisticNormal_single 3 7 2); lra.
Defined.

(** X15: on an empty [y] the exponent [1/N] is an [int] division by zero:
    no value is defined, whatever [p] and [var]. *)
Theorem negLogLogisticNormal_empty (p : list R) (var : R) :
  negLogLogisticNormal [] p var = None.
Proof.
  unfold negLogLogisticNormal. cbv zeta.
  destruct (rlog var) as [lnvar | ]; reflexivity.
Qed.

(** X16: from two classes on, with positive entries, vectors of one size
    and a positive variance, the geometric means play no part: the value
    is [(N-1)*log(var)/2] plus the sum of [(log y(i) - log p(i))^2 / 2 /
    var]. *)
Theorem negLogLogisticNormal_closed_form (y p : list R) (var : R) :
  (2 <= vsize y)%Z -> length p = length y ->
  Forall (fun x => 0 < x) y -> Forall (fun x => 0 < x) p ->
  0 < var ->
  negLogLogisticNormal y p var
  = Some (IZR (vsize y - 1) * ln var / 2
          + vsum (map (fun yp => square (ln (fst yp) - ln (snd yp)) / 2 / var)
                      (combine y p))).
Proof.
  intros HN Hlen Hy Hp Hvar.
  rewrite negLogLogisticNormal_value by (try assumption; lia).
  destruct (Z.eqb_spec (vsize y) 1) as [E | _]; [lia | ].
  f_equal. rewrite Rplus_0_l. f_equal. f_equal.
  apply map_ext. intros [a b]. cbn [fst snd]. rewrite !Rdiv_1_r. reflexivity.
Qed.

Lemma negLogLogisticNormal_closed_form_witness :
  negLogLogisticNormal [1/5; 4/5] [1/2; 1/2] 3
  = Some (IZR (vsize [1/5; 4/5] - 1) * ln 3 / 2
          + vsum (map (fun yp => square (ln (fst yp) - ln (snd yp)) / 2 / 3)
                      (combine [1/5; 4/5] [1/2; 1/2]))).
Proof.
  apply (negLogLogisticNormal_closed_form [1/5; 4/5] [1/2; 1/2] 3).
  - unfold vsize. cbn [length]. lia.
  - reflexivity.
  - repeat constructor; lra.
  - repeat constructor; lra.
  - lra.
Defined.

(** X17: on positive vectors of one size [N >= 1] and a positive variance
    the value is a real number, never below the variance term
    [(N-1)*log(var)/2] (which it takes at [p = y]). *)
Theorem negLogLogisticNormal_lower_bound (y p : list R) (var : R) :
  (1 <= vsize y)%Z -> length p = length y ->
  Forall (fun x => 0 < x) y -> Forall (fun x => 0 < x) p ->
  0 < var ->
  exists v, negLogLogisticNormal y p var = Some v /\
            IZR (vsize y - 1) * ln var / 2 <= v.
Proof.
  intros HN Hlen Hy Hp Hvar.
  rewrite negLogLogisticNormal_value by assumption.
  eexists. split; [reflexivity | ].
  match goal with |- _ <= _ + vsum ?l => assert (Hs : 0 <= vsum l) end.
  { apply vsum_nonneg, Forall_map, Forall_forall. intros yp _.
    assert (0 <= square (ln (fst yp / (if (vsize y =? 1)%Z then vprod y else 1))
                         - ln (snd yp / (if (vsize y =? 1)%Z then vprod p else 1))))
      by (unfold square; apply pow2_ge_0).
    apply Rmult_le_pos; [lra | ]. apply Rlt_le, Rinv_0_lt_compat. assumption. }
  lra.
Qed.

Lemma negLogLogisticNormal_lower_bound_witness :
  exists v, negLogLogisticNormal [1/5; 4/5] [1/2; 1/2] 3 = Some v /\
            IZR (vsize [1/5; 4/5] - 1) * ln 3 / 2 <= v.
Proof.
  apply (negLogLogisticNormal_lower_bound [1/5; 4/5] [1/2; 1/2] 3).
  - unfold vsize. cbn [length]. lia.
  - reflexivity.
  - repeat constructor; lra.
  - repeat constructor; lra.
  - lra.
Defined.

Lemma combine_scaled (c : R) (y p : list R) :
  combine (map (fun x => c * x) y) (map (fun x => c * x) p)
  = map (fun yp => (c * fst yp, c * snd yp)) (combine y p).
Proof.
  revert p. induction y as [ | a y IH]; intros [ | b p]; try reflexivity.
  cbn [map combine fst snd]. rewrite IH. reflexivity.
Qed.

Lemma scaled_all_pos (c : R) (v : list R) :
  0 < c -> Forall (fun x => 0 < x) v -> Forall (fun x => 0 < x) (map (fun x => c * x) v).
Proof.
  intros Hc Hv. apply Forall_map. revert Hv. apply Forall_impl.
  intros x Hx. apply Rmult_lt_0_compat; assumption.
Qed.

(** X18: multiplying [y] and [p] by the same positive factor does not
    change the value (positive entries, vectors of one size, positive
    variance). *)
Theorem negLogLogisticNormal_joint_scale (c : R) (y p : list R) (var : R) :
  0 < c -> length p = length y ->
  Forall (fun x => 0 < x) y -> Forall (fun x => 0 < x) p ->
  0 < var ->
  negLogLogisticNormal (map (fun x => c * x) y) (map (fun x => c * x) p) var
  = negLogLogisticNormal y p var.
Proof.
  intros Hc Hlen Hy Hp Hvar.
  destruct y as [ | a y]; [destruct p; [reflexivity | discriminate] | ].
  assert (HN : (1 <= vsize (a :: y))%Z) by (unfold vsize; cbn [length]; lia).
  assert (HNc : vsize (map (fun x => c * x) (a :: y)) = vsize (a :: y)).
  { unfold vsize. rewrite length_map. reflexivity. }
  rewrite (negLogLogisticNormal_value (a :: y) p var) by assumption.
  rewrite negLogLogisticNormal_value;
    [ | rewrite HNc; assumption | rewrite !length_map; assumption
      | apply scaled_all_pos; assumption | apply scaled_all_pos; assumption
      | assumption ].
  rewrite HNc, combine_scaled, map_map. f_equal. f_equal. f_equal.
  apply map_ext_in. intros [u v] Hin. cbn [fst snd].
  assert (Hu : 0 < u).
  { rewrite Forall_forall in Hy. apply Hy. apply (in_combine_l _ _ _ _ Hin). }
  assert (Hv : 0 < v).
  { rewrite Forall_forall in Hp. apply Hp. apply (in_combine_r _ _ _ _ Hin). }
  destruct (Z.eqb_spec (vsize (a :: y)) 1) as [E | _].
  - (* one class: both geometric means carry the factor *)
    destruct y as [ | ? ?]; [ | unfold vsize in E; cbn [length] in E; lia].
    destruct p as [ | b [ | ? ?]]; try discriminate.
    cbn [map]. rewrite !vprod_cons.
    assert (Ha : 0 < a) by (inversion Hy; assumption).
    assert (Hb : 0 < b) by (inversion Hp; assumption).
    replace (c * u / (c * a * vprod [])) with (u / (a * vprod []))
      by (unfold vprod; cbn [fold_left]; field; split; lra).
    replace (c * v / (c * b * vprod [])) with (v / (b * vprod []))
      by (unfold vprod; cbn [fold_left]; field; split; lra).
    reflexivity.
  - (* two classes or more: the factor cancels in the difference of logs *)
    rewrite !Rdiv_1_r, !ln_mult by assumption.
    f_equal. f_equal. f_equal. lra.
Qed.

Lemma negLogLogisticNormal_joint_scale_witness :
  negLogLogisticNormal (map (fun x => 10 * x) [1/5; 4/5])
                       (map (fun x => 10 * x) [1/2; 1/2]) 3
  = negLogLogisticNormal [1/5; 4/5] [1/2; 1/2] 3.
Proof.
  apply (negLogLogisticNormal_joint_scale 10 [1/5; 4/5] [1/2; 1/2] 3).
  - lra.
  - reflexivity.
  - repeat constructor; lra.
  - repeat constructor; lra.
  - lra.
Defined.

(** ** Composition and frame properties *)

Lemma noised_twice (S : R) (inputComp : list R) :
  0 < S ->
  forall n1 n2 : list R,
  map (fun xy => exp (ln (fst xy) + snd xy))
      (combine (map (fun x => x / S)
                    (map (fun xy => exp (ln (fst xy) + snd xy)) (combine inputComp n1)))
               n2)
  = map (fun x => x * / S)
        (map (fun xy => exp (ln (fst xy) + snd xy))
             (combine inputComp (map (fun ab => fst ab + snd ab) (combine n1 n2)))).
Proof.
  intros HS. induction inputComp as [ | a l IH]; intros [ | x n1] [ | z n2];
    try reflexivity.
  cbn [combine map fst snd]. rewrite IH. f_equal.
  assert (He := exp_pos (ln a + x)).
  rewrite exp_plus, exp_ln by (apply Rdiv_lt_0_compat; assumption).
  replace (ln a + (x + z)) with ((ln a + x) + z) by lra.
  rewrite (exp_plus (ln a + x) z). unfold Rdiv. ring.
Qed.

(** X19: noise composes additively.  On positive proportions, noising
    with [n1] and then noising the result with [n2] returns what noising
    once with the entry-wise sum of [n1] and [n2] returns. *)
Theorem addCompNoise_compose (inputComp n1 n2 : list R) :
  Forall (fun x => 0 < x) inputComp ->
  length n1 = length inputComp ->
  length n2 = length inputComp ->
  exists out1,
    addCompNoise inputComp n1 = Some out1 /\
    addCompNoise out1 n2
    = addCompNoise inputComp (map (fun ab => fst ab + snd ab) (combine n1 n2)).
Proof.
  intros Hpos H1 H2.
  rewrite (addCompNoise_normalises inputComp n1 Hpos H1).
  eexists. split; [reflexivity | ].
  destruct inputComp as [ | a l].
  - destruct n1; [ | discriminate]. destruct n2; [reflexivity | discriminate].
  - assert (Hepos := exp_all_pos (combine (a :: l) n1)).
    assert (HS : 0 < vsum (map (fun xy => exp (ln (fst xy) + snd xy))
                               (combine (a :: l) n1))).
    { apply vsum_pos; [ | assumption]. destruct n1; discriminate. }
    set (S := vsum _) in *.
    apply (addCompNoise_same_up_to_factor
             (a :: l) (map (fun ab => fst ab + snd ab) (combine n1 n2)) _ n2 (/ S)).
    + assumption.
    + rewrite length_map, length_combine. lia.
    + apply Forall_map. revert Hepos. apply Forall_impl.
      intros x Hx. apply Rdiv_lt_0_compat; assumption.
    + rewrite !length_map, length_combine. lia.
    + apply Rinv_0_lt_compat. assumption.
    + apply noised_twice. assumption.
Qed.

Lemma addCompNoise_compose_witness :
  exists out1,
    addCompNoise [1; 3] [2; 5] = Some out1 /\
    addCompNoise out1 [4; -1]
    = addCompNoise [1; 3] (map (fun ab => fst ab + snd ab) (combine [2; 5] [4; -1])).
Proof.
  apply (addCompNoise_compose [1; 3] [2; 5] [4; -1]).
  - repeat constructor; lra.
  - reflexivity.
  - reflexivity.
Defined.

(** X20: [CRmort] reads [ageComp] only at the ages [kage .. Aplus]: two
    vectors that agree there (and hold these ages) give the same [Ztmp]. *)
Theorem CRmort_reads_only_range
        (ageComp ageComp' : list R) (kage Aplus minObs : Z) :
  (1 <= kage <= Aplus)%Z /\ (Aplus <= vsize ageComp)%Z ->
  (1 <= kage <= Aplus)%Z /\ (Aplus <= vsize ageComp')%Z ->
  (forall a, (kage - 1 <= a < Aplus)%Z -> vget ageComp a = vget ageComp' a) ->
  CRmort ageComp kage Aplus minObs = CRmort ageComp' kage Aplus minObs.
Proof.
  intros Hr Hr' Hsame.
  assert (Hw : ageWindow ageComp kage Aplus = ageWindow ageComp' kage Aplus).
  { apply nth_error_ext. intros i.
    assert (Hl := ageWindow_length ageComp kage Aplus Hr).
    assert (Hl' := ageWindow_length ageComp' kage Aplus Hr').
    destruct (Nat.lt_ge_cases i (Z.to_nat (Aplus - kage + 1))) as [Hi | Hi].
    - rewrite <- (ageWindow_get ageComp kage Aplus Hr i) by lia.
      rewrite <- (ageWindow_get ageComp' kage Aplus Hr' i) by lia.
      apply Hsame. lia.
    - rewrite (proj2 (nth_error_None _ _)) by lia.
      rewrite (proj2 (nth_error_None _ _)) by lia. reflexivity. }
  unfold CRmort, CRmort_abar.
  rewrite (CRmort_fill_recorded ageComp kage Aplus minObs Hr).
  rewrite (CRmort_fill_recorded ageComp' kage Aplus minObs Hr').
  unfold recorded_ageObs, recorded_abar, recorded. rewrite Hw. reflexivity.
Qed.

Lemma CRmort_reads_only_range_witness :
  CRmort [9; 5; 10; 3; 8] 2 4 1 = CRmort [0; 5; 10; 3; 0; 1] 2 4 1.
Proof.
  apply (CRmort_reads_only_range [9; 5; 10; 3; 8] [0; 5; 10; 3; 0; 1] 2 4 1).
  - unfold vsize. cbn [length]. lia.
  - unfold vsize. cbn [length]. lia.
  - intros a Ha.
    assert (Hcases : a = 1%Z \/ a = 2%Z \/ a = 3%Z) by lia.
    destruct Hcases as [E | [E | E]]; subst a; reflexivity.
Defined.

Lemma F_rec_zero_step (C M B : R) (k : nat) :
  F_rec 0 C M B k = C / (C + B).
Proof.
  induction k as [ | k IH]; cbn [F_rec]; [reflexivity | ].
  rewrite IH. unfold F_next. cbv zeta. unfold Rdiv. lra.
Qed.

(** X21: with a zero step fraction ([Bstep = 0]) no iteration moves [F]:
    when the first pass divides by no zero, [solveBaranovDD] returns the
    initial [F = C/(C+B)] and [Z = M + F] for every [nIter]. *)
Theorem solveBaranovDD_zero_step (C M B : R) (nIter : Z) :
  C + B <> 0 ->
  M + C / (C + B) <> 0 ->
  J_of M B (C / (C + B)) <> 0 ->
  solveBaranovDD 0 C M B nIter = Some (M + C / (C + B), C / (C + B)).
Proof.
  intros H0 HZ HJ. rewrite solveBaranovDD_value.
  - rewrite !F_rec_zero_step. reflexivity.
  - split; [assumption | ]. intros i _. rewrite F_rec_zero_step.
    split; assumption.
Qed.

Lemma solveBaranovDD_zero_step_witness :
  solveBaranovDD 0 1 1 1 7 = Some (1 + 1 / (1 + 1), 1 / (1 + 1)).
Proof.
  apply (solveBaranovDD_zero_step 1 1 1 7).
  - lra.
  - lra.
  - apply Rlt_not_eq, J_of_unit_negative.
Defined.
